(** * lock_files: the cipher layer and the lock/unlock path transition

    A shallow embedding of [lock_files.py] (its Python 3 behaviour, on
    byte-string passwords and contents) and the properties of its padding
    scheme, key normalisation, codec and per-file state transition, of
    the run over files and directories with its statistics, and of the
    handling of the command line and of the password.

    Conventions.
    - A Python [bytes] value is a [list byte]; a path or a message is a
      [string].
    - Python exceptions are values of [exn]; a computation that may raise
      returns a [result].
    - Code that touches the file system, standard output or the [stats]
      dictionary is written in the state-and-exception monad [M] over
      [world].  Standard output is the list of the lines written, without
      their newline; the file system is a finite map from paths to
      contents, with oracles for the failures of reads and writes and for
      the listing of directories.
    - [Crypto.Cipher.AES], [Crypto.Random] and [base64] are not part of the
      repository.  Their raw transformations are the fields of the class
      [Library]; the argument checks they perform (the [ValueError]s they
      raise) are written out in [AES_new], [cipher_encrypt] and
      [cipher_decrypt].  What is assumed of them is collected in
      [LibraryLaws], and [Toy.lib] is a small library that satisfies the
      laws, on which the program is run on concrete inputs. *)

From Stdlib Require Import Strings.Ascii Strings.String Strings.Byte ZArith Lia.
From stdpp Require Import base option list strings gmap pretty.

Abbreviation bytes := (list byte).

(** ** Python values and exceptions *)

Inductive exn : Type :=
  | ValueError (msg : string)
  | IndexError
  | IOError (msg : string)
  | SystemExit (status : nat).

Inductive result (A : Type) : Type :=
  | Ok (a : A)
  | Raise (e : exn).
Arguments Ok {A} a.
Arguments Raise {A} e.

(** [s[:stop]] for a Python sequence [s] and an integer [stop] that may be
    negative: a negative [stop] counts from the end, and both ends are
    clamped to the sequence. *)
Definition slice_to {A : Type} (s : list A) (stop : Z) : list A :=
  if (stop <? 0)%Z
  then take (Z.to_nat (Z.of_nat (length s) + stop)) s
  else take (Z.to_nat stop) s.

(** [bytes([i])]: the one-byte sequence holding [i]. The source only calls
    it with [i <= 32]; outside [0..255] Python raises, which no caller
    reaches, and the model yields the empty sequence there. *)
Definition chr (i : nat) : bytes :=
  match Byte.of_nat i with
  | Some b => [b]
  | None => []
  end.

(** [b * n]: sequence repetition. *)
Definition repeat_seq (b : bytes) (n : nat) : bytes := concat (replicate n b).

(** ** The external libraries *)

Class Library : Type := {
  (** [base64.b64encode] *)
  b64encode : bytes -> bytes;
  (** [base64.b64decode]; [None] is [binascii.Error], a [ValueError] *)
  b64decode : bytes -> option bytes;
  (** the raw AES-CBC transformations, key then IV then data *)
  AES_CBC_encrypt : bytes -> bytes -> bytes -> bytes;
  AES_CBC_decrypt : bytes -> bytes -> bytes -> bytes;
  (** [Random.new().read(16)], by the number of the read *)
  Random_read : nat -> bytes
}.

Definition AES_block_size : nat := 16.

(** The object [AES.new(key, AES.MODE_CBC, iv)] returns. *)
Record cipher : Type := { c_key : bytes; c_iv : bytes }.

(** [AES.new(key, AES.MODE_CBC, iv)]: refuses an IV that is not one block
    long and a key that is not 16, 24 or 32 bytes long. *)
Definition AES_new (key iv : bytes) : result cipher :=
  if bool_decide (length iv = AES_block_size) then
    if bool_decide (length key ∈ [16; 24; 32])
    then Ok {| c_key := key; c_iv := iv |}
    else Raise (ValueError "AES key must be either 16, 24, or 32 bytes long")
  else Raise (ValueError "IV must be 16 bytes long").

(** [cipher.encrypt(data)] and [cipher.decrypt(data)]: refuse data that is
    not a whole number of blocks; the empty input is accepted. *)
Definition cipher_encrypt `{Library} (c : cipher) (data : bytes) : result bytes :=
  if bool_decide (length data `mod` AES_block_size = 0)
  then Ok (AES_CBC_encrypt (c_key c) (c_iv c) data)
  else Raise (ValueError "Input strings must be a multiple of 16 in length").

Definition cipher_decrypt `{Library} (c : cipher) (data : bytes) : result bytes :=
  if bool_decide (length data `mod` AES_block_size = 0)
  then Ok (AES_CBC_decrypt (c_key c) (c_iv c) data)
  else Raise (ValueError "Input strings must be a multiple of 16 in length").

(** ** class AESCipher *)

Module AESCipher.

Record t : Type := {
  m_bs : nat;
  m_pad : list bytes;
  m_key : bytes
}.

(** The table built by the two loops of [__init__]: entry [i] is [i]
    copies of byte [i], and entry [0] is then overwritten. *)
Definition pad_table (bs : nat) : list bytes :=
  let tbl := (fun i => repeat_seq (chr i) i) <$> seq 0 (bs + 1) in
  let b := repeat_seq (chr bs) bs in
  <[0 := repeat_seq b bs]> tbl.

Definition _pad_with (bs : nat) (tbl : list bytes) (s : bytes) : bytes :=
  let b := length s `mod` bs in
  let p := bs - b in
  s ++ tbl !!! p.

Definition _pad (self : t) (s : bytes) : bytes :=
  _pad_with (m_bs self) (m_pad self) s.

Definition _unpad (s : bytes) : result bytes :=
  match last s with
  | None => Raise IndexError
  | Some c =>
      let u := Byte.to_nat c in
      Ok (slice_to s (- Z.of_nat u))
  end.

Definition __init__ (key : bytes) : t :=
  let bs := 32 in
  let tbl := pad_table bs in
  {| m_bs := bs;
     m_pad := tbl;
     m_key := if bool_decide (bs <= length key)
              then take bs key
              else _pad_with bs tbl key |}.

(** [encrypt]; [iv] is the value [Random.new().read(AES.block_size)]
    returned for this call. *)
Definition encrypt `{Library} (self : t) (iv : bytes) (raw : bytes) : result bytes :=
  let raw := _pad self raw in
  match AES_new (m_key self) iv with
  | Raise e => Raise e
  | Ok c =>
      match cipher_encrypt c raw with
      | Raise e => Raise e
      | Ok ct => Ok (b64encode (iv ++ ct))
      end
  end.

Definition decrypt `{Library} (self : t) (enc : bytes) : result bytes :=
  match b64decode enc with
  | None => Raise (ValueError "Incorrect padding")
  | Some enc =>
      let iv := take AES_block_size enc in
      match AES_new (m_key self) iv with
      | Raise e => Raise e
      | Ok c =>
          match cipher_decrypt c (drop AES_block_size enc) with
          | Raise e => Raise e
          | Ok s => _unpad s
          end
      end
  end.

End AESCipher.

(** ** The world: file system, standard output, statistics *)

(** How an [open(path, 'wb')] followed by [write(content)] ends. [open]
    truncates the file before anything is written, so a failure of the write
    itself leaves the first [n] bytes of the content behind. *)
Inductive wfault : Type :=
  | WriteOk
  | OpenFails (exc : string)
  | WriteFails (exc : string) (n : nat).

(** What the run did to the file system, in order. *)
Inductive event : Type :=
  | EvWrite (path : string) (content : bytes)
  | EvWriteFailed (path : string)
  | EvRemove (path : string).

(** The dictionary [stats] that [run] creates and every function below
    updates in place; its seven keys are fixed. *)
Record statistics : Type := {
  st_locked : nat;
  st_unlocked : nat;
  st_skipped : nat;
  st_files : nat;
  st_dirs : nat;
  st_read : nat;
  st_written : nat
}.

Record world : Type := {
  (** regular files and their contents *)
  w_files : gmap string bytes;
  (** directories *)
  w_dirs : gset string;
  (** what [os.walk(path)] yields: each directory with its file names *)
  w_walk : string -> list (string * list string);
  (** what [os.listdir(path)] returns *)
  w_listdir : string -> list string;
  (** the text of the [IOError] when a path cannot be opened for reading *)
  w_rfault : string -> option string;
  (** how writing a path ends *)
  w_wfault : string -> wfault;
  (** the lines written to standard output, oldest first *)
  w_stdout : list string;
  (** the file-system events so far, oldest first *)
  w_events : list event;
  (** the number of reads of the random source so far *)
  w_reads : nat;
  stats : statistics
}.

Definition set_files (f : gmap string bytes -> gmap string bytes) (w : world) : world :=
  {| w_files := f (w_files w); w_dirs := w_dirs w; w_walk := w_walk w;
     w_listdir := w_listdir w; w_rfault := w_rfault w; w_wfault := w_wfault w;
     w_stdout := w_stdout w; w_events := w_events w; w_reads := w_reads w;
     stats := stats w |}.

Definition set_stdout (f : list string -> list string) (w : world) : world :=
  {| w_files := w_files w; w_dirs := w_dirs w; w_walk := w_walk w;
     w_listdir := w_listdir w; w_rfault := w_rfault w; w_wfault := w_wfault w;
     w_stdout := f (w_stdout w); w_events := w_events w; w_reads := w_reads w;
     stats := stats w |}.

Definition set_events (f : list event -> list event) (w : world) : world :=
  {| w_files := w_files w; w_dirs := w_dirs w; w_walk := w_walk w;
     w_listdir := w_listdir w; w_rfault := w_rfault w; w_wfault := w_wfault w;
     w_stdout := w_stdout w; w_events := f (w_events w); w_reads := w_reads w;
     stats := stats w |}.

Definition set_reads (f : nat -> nat) (w : world) : world :=
  {| w_files := w_files w; w_dirs := w_dirs w; w_walk := w_walk w;
     w_listdir := w_listdir w; w_rfault := w_rfault w; w_wfault := w_wfault w;
     w_stdout := w_stdout w; w_events := w_events w; w_reads := f (w_reads w);
     stats := stats w |}.

Definition set_stats (f : statistics -> statistics) (w : world) : world :=
  {| w_files := w_files w; w_dirs := w_dirs w; w_walk := w_walk w;
     w_listdir := w_listdir w; w_rfault := w_rfault w; w_wfault := w_wfault w;
     w_stdout := w_stdout w; w_events := w_events w; w_reads := w_reads w;
     stats := f (stats w) |}.

(** The keys of [stats], and [stats[k] += n]. *)
Inductive stat_key : Type :=
  | locked | unlocked | skipped | files | dirs | read | written.

Definition stat_add (k : stat_key) (n : nat) (s : statistics) : statistics :=
  match k with
  | locked => {| st_locked := st_locked s + n; st_unlocked := st_unlocked s;
                 st_skipped := st_skipped s; st_files := st_files s;
                 st_dirs := st_dirs s; st_read := st_read s;
                 st_written := st_written s |}
  | unlocked => {| st_locked := st_locked s; st_unlocked := st_unlocked s + n;
                   st_skipped := st_skipped s; st_files := st_files s;
                   st_dirs := st_dirs s; st_read := st_read s;
                   st_written := st_written s |}
  | skipped => {| st_locked := st_locked s; st_unlocked := st_unlocked s;
                  st_skipped := st_skipped s + n; st_files := st_files s;
                  st_dirs := st_dirs s; st_read := st_read s;
                  st_written := st_written s |}
  | files => {| st_locked := st_locked s; st_unlocked := st_unlocked s;
                st_skipped := st_skipped s; st_files := st_files s + n;
                st_dirs := st_dirs s; st_read := st_read s;
                st_written := st_written s |}
  | dirs => {| st_locked := st_locked s; st_unlocked := st_unlocked s;
               st_skipped := st_skipped s; st_files := st_files s;
               st_dirs := st_dirs s + n; st_read := st_read s;
               st_written := st_written s |}
  | read => {| st_locked := st_locked s; st_unlocked := st_unlocked s;
               st_skipped := st_skipped s; st_files := st_files s;
               st_dirs := st_dirs s; st_read := st_read s + n;
               st_written := st_written s |}
  | written => {| st_locked := st_locked s; st_unlocked := st_unlocked s;
                  st_skipped := st_skipped s; st_files := st_files s;
                  st_dirs := st_dirs s; st_read := st_read s;
                  st_written := st_written s + n |}
  end.

(** ** The monad of the program: state and exceptions *)

Definition M (A : Type) : Type := world -> result A * world.

Definition ret {A : Type} (a : A) : M A := fun w => (Ok a, w).

Definition bind {A B : Type} (m : M A) (k : A -> M B) : M B :=
  fun w =>
    match m w with
    | (Ok a, w') => k a w'
    | (Raise e, w') => (Raise e, w')
    end.

Definition raise {A : Type} (e : exn) : M A := fun w => (Raise e, w).

Definition lift {A : Type} (r : result A) : M A := fun w => (r, w).

Definition modify (f : world -> world) : M unit := fun w => (Ok tt, f w).

Definition gets {A : Type} (f : world -> A) : M A := fun w => (Ok (f w), w).

(** [try: body except <class> as exc: handler]: [handler e] is [Some h] for
    the exceptions [e] of the class; the effects of [body] up to the raise
    stay. *)
Definition try_except {A : Type} (body : M A) (handler : exn -> option (M A)) : M A :=
  fun w =>
    match body w with
    | (Ok a, w') => (Ok a, w')
    | (Raise e, w') =>
        match handler e with
        | Some h => h w'
        | None => (Raise e, w')
        end
    end.

Declare Scope prog_scope.
Delimit Scope prog_scope with prog.
Notation "x <- m ;; k" := (bind m (fun x => k))
  (at level 100, m at next level, right associativity) : prog_scope.
Notation "m ;; k" := (bind m (fun _ => k))
  (at level 100, right associativity) : prog_scope.
Open Scope prog_scope.

(** [for x in xs: body(x)] *)
Fixpoint for_each {A : Type} (xs : list A) (body : A -> M unit) : M unit :=
  match xs with
  | [] => ret tt
  | x :: xs => body x ;; for_each xs body
  end.

(** ** Operating-system primitives *)

Definition os_path_isfile (path : string) : M bool :=
  gets (fun w => bool_decide (is_Some (w_files w !! path))).

Definition os_path_isdir (path : string) : M bool :=
  gets (fun w => bool_decide (path ∈ w_dirs w)).

Definition os_path_exists (path : string) : M bool :=
  gets (fun w => bool_decide (is_Some (w_files w !! path)) || bool_decide (path ∈ w_dirs w)).

(** [with open(path, 'rb') as ifp: ifp.read()] *)
Definition open_rb_read (path : string) : M bytes :=
  fun w =>
    match w_rfault w path with
    | Some exc => (Raise (IOError exc), w)
    | None =>
        match w_files w !! path with
        | Some data => (Ok data, w)
        | None => (Raise (IOError "No such file or directory"), w)
        end
    end.

(** [with open(path, 'wb') as ofp: ofp.write(content)] *)
Definition open_wb_write (path : string) (content : bytes) : M unit :=
  fun w =>
    match w_wfault w path with
    | WriteOk =>
        (Ok tt, set_events (fun l => l ++ [EvWrite path content])
                  (set_files (insert path content) w))
    | OpenFails exc =>
        (Raise (IOError exc), set_events (fun l => l ++ [EvWriteFailed path]) w)
    | WriteFails exc n =>
        (Raise (IOError exc),
         set_events (fun l => l ++ [EvWriteFailed path])
           (set_files (insert path (take n content)) w))
    end.

(** [os.remove(path)] *)
Definition os_remove (path : string) : M unit :=
  fun w =>
    match w_files w !! path with
    | Some _ =>
        (Ok tt, set_events (fun l => l ++ [EvRemove path])
                  (set_files (delete path) w))
    | None => (Raise (IOError "No such file or directory"), w)
    end.

(** [os.path.join(a, b)] *)
Definition os_path_join (a b : string) : string :=
  if String.prefix "/" b then b
  else if bool_decide (a = EmptyString) then a +:+ b
  else if bool_decide (String.get (String.length a - 1) a = Some "/"%char) then a +:+ b
  else a +:+ "/" +:+ b.

(** [Random.new().read(AES.block_size)] *)
Definition random_read `{Library} : M bytes :=
  fun w => (Ok (Random_read (w_reads w)), set_reads S w).

(** ** Strings of paths *)

(** [s.endswith(suffix)] *)
Definition endswith (s suffix : string) : bool :=
  bool_decide (String.length suffix <= String.length s) &&
  bool_decide (String.substring (String.length s - String.length suffix)
                 (String.length suffix) s = suffix).

(** [s[:stop]] on a string *)
Definition str_slice_to (s : string) (stop : Z) : string :=
  if (stop <? 0)%Z
  then String.substring 0 (Z.to_nat (Z.of_nat (String.length s) + stop)) s
  else String.substring 0 (Z.to_nat stop) s.

(** [str.lower] on the ASCII letters *)
Definition lower_ascii (c : ascii) : ascii :=
  let n := Ascii.nat_of_ascii c in
  if bool_decide (65 <= n <= 90) then Ascii.ascii_of_nat (n + 32) else c.

Fixpoint str_lower (s : string) : string :=
  match s with
  | EmptyString => EmptyString
  | String c s => String (lower_ascii c) (str_lower s)
  end.

(** [sorted(names, key=str.lower)]: a stable insertion sort; [x] comes
    before every element of [l] in the original order. *)
Fixpoint insert_by_lower (x : string) (l : list string) : list string :=
  match l with
  | [] => [x]
  | y :: l' =>
      if String.ltb (str_lower y) (str_lower x)
      then y :: insert_by_lower x l'
      else x :: y :: l'
  end.

Definition sorted_lower (l : list string) : list string :=
  foldr insert_by_lower [] l.

(** ** Message utility functions

    [lineno] is the line number [inspect.stack()] reports for the caller,
    the line of the call in [lock_files.py]. *)

Definition dq : string := String (Ascii.ascii_of_nat 34) EmptyString.

Definition _msg (msg prefix : string) (lineno : nat) : M unit :=
  modify (set_stdout (fun out => out ++ [prefix +:+ ":" +:+ pretty lineno +:+ " " +:+ msg])).

Record options : Type := {
  cont : bool;
  overwrite : bool;
  suffix : string;
  lock : bool;
  unlock : bool;
  no_recurse : bool;
  verbose : nat;
  FILES : list string
}.

Definition infov2 (opts : options) (msg : string) (lineno : nat) : M unit :=
  if bool_decide (1 < verbose opts) then _msg msg "INFO" lineno else ret tt.

Definition err (msg : string) (lineno : nat) : M unit :=
  _msg msg "ERROR" lineno ;;
  raise (SystemExit 1).

Definition warn (msg : string) (lineno : nat) : M unit :=
  _msg msg "WARNING" lineno.

(** ** Program specific functions *)

Definition get_cont_fct (opts : options) : string -> nat -> M unit :=
  if cont opts then warn else err.

Definition check_existence (opts : options) (path : string) : M unit :=
  exists_ <- os_path_exists path ;;
  if negb (overwrite opts) && exists_
  then get_cont_fct opts ("file exists, cannot continue: " +:+ path) 236
  else ret tt.

Definition read_file (opts : options) (path : string) : M (option bytes) :=
  try_except
    (data <- open_rb_read path ;;
     modify (set_stats (stat_add read (length data))) ;;
     ret (Some data))
    (fun e =>
       match e with
       | IOError exc =>
           Some (get_cont_fct opts
                   ("failed to read file " +:+ dq +:+ path +:+ dq +:+ ": " +:+ exc) 249 ;;
                 ret None)
       | _ => None
       end).

Definition write_file (opts : options) (path : string) (content : bytes) : M bool :=
  try_except
    (open_wb_write path content ;;
     modify (set_stats (stat_add written (length content))) ;;
     ret true)
    (fun e =>
       match e with
       | IOError exc =>
           Some (get_cont_fct opts
                   ("failed to write file " +:+ dq +:+ path +:+ dq +:+ ": " +:+ exc) 262 ;;
                 ret false)
       | _ => None
       end).

Definition lock_file `{Library} (opts : options) (password : bytes) (path : string) : M unit :=
  let out := path +:+ suffix opts in
  infov2 opts ("lock " +:+ dq +:+ path +:+ dq +:+ " --> " +:+ dq +:+ out +:+ dq) 272 ;;
  check_existence opts out ;;
  content <- read_file opts path ;;
  match content with
  | Some content =>
      try_except
        (let aes := AESCipher.__init__ password in
         iv <- random_read ;;
         data <- lift (AESCipher.encrypt aes iv content) ;;
         ok <- write_file opts out data ;;
         if ok then
           (if bool_decide (out ≠ path) then os_remove path else ret tt) ;;
           modify (set_stats (stat_add locked 1))
         else ret tt)
        (fun e =>
           match e with
           | ValueError exc =>
               Some (get_cont_fct opts
                       ("lock/encrypt operation failed for " +:+ dq +:+ path +:+ dq
                          +:+ ": " +:+ exc) 284)
           | _ => None
           end)
  | None => ret tt
  end.

Definition unlock_file `{Library} (opts : options) (password : bytes) (path : string) : M unit :=
  if endswith path (suffix opts) then
    let out := if bool_decide (0 < String.length (suffix opts))
               then str_slice_to path (- Z.of_nat (String.length (suffix opts)))
               else path in
    infov2 opts ("unlock " +:+ dq +:+ path +:+ dq +:+ " --> " +:+ dq +:+ out +:+ dq) 296 ;;
    check_existence opts out ;;
    content <- read_file opts path ;;
    match content with
    | Some content =>
        try_except
          (let aes := AESCipher.__init__ password in
           data <- lift (AESCipher.decrypt aes content) ;;
           ok <- write_file opts out data ;;
           if ok then
             (if bool_decide (out ≠ path) then os_remove path else ret tt) ;;
             modify (set_stats (stat_add unlocked 1))
           else ret tt)
          (fun e =>
             match e with
             | ValueError exc =>
                 Some (get_cont_fct opts
                         ("unlock/decrypt operation failed for " +:+ dq +:+ path +:+ dq
                            +:+ ": " +:+ exc) 308)
             | _ => None
             end)
    | None => ret tt
    end
  else
    infov2 opts ("skip " +:+ dq +:+ path +:+ dq) 310 ;;
    modify (set_stats (stat_add skipped 1)).

Definition process_file `{Library} (opts : options) (password : bytes) (path : string) : M unit :=
  modify (set_stats (stat_add files 1)) ;;
  if lock opts
  then lock_file opts password path
  else unlock_file opts password path.

Definition process_dir `{Library} (opts : options) (password : bytes) (path : string) : M unit :=
  modify (set_stats (stat_add dirs 1)) ;;
  if negb (no_recurse opts) then
    walk <- gets (fun w => w_walk w path) ;;
    for_each walk (fun '(root, subfiles) =>
      for_each (sorted_lower subfiles) (fun subfile =>
        if String.prefix "." subfile then ret tt
        else
          let subpath := os_path_join root subfile in
          process_file opts password subpath))
  else
    entries <- gets (fun w => w_listdir w path) ;;
    for_each (sorted_lower entries) (fun entry =>
      if String.prefix "." entry then ret tt
      else
        let subpath := os_path_join path entry in
        isfile <- os_path_isfile subpath ;;
        if isfile then process_file opts password subpath else ret tt).

Definition process `{Library} (opts : options) (password : bytes) (entry : string) : M unit :=
  isfile <- os_path_isfile entry ;;
  if isfile then process_file opts password entry
  else
    isdir <- os_path_isdir entry ;;
    if isdir then process_dir opts password entry else ret tt.

Definition stats0 : statistics :=
  {| st_locked := 0; st_unlocked := 0; st_skipped := 0; st_files := 0;
     st_dirs := 0; st_read := 0; st_written := 0 |}.

(** ['{:>10,}'.format(n)]: decimal digits grouped by three with commas,
    right-aligned in ten columns. *)
Fixpoint group3 (rev_digits : list ascii) (k : nat) : list ascii :=
  match rev_digits with
  | [] => []
  | d :: ds =>
      if bool_decide (k = 3)
      then ","%char :: d :: group3 ds 1
      else d :: group3 ds (S k)
  end.

Definition fmt_count (n : nat) : string :=
  let body := rev (group3 (rev (list_ascii_of_string (pretty n))) 0) in
  string_of_list_ascii (replicate (10 - length body) " "%char ++ body).

Definition print (line : string) : M unit :=
  modify (set_stdout (fun out => out ++ [line])).

Definition run `{Library} (opts : options) (password : bytes) : M unit :=
  modify (set_stats (fun _ => stats0)) ;;
  for_each (FILES opts) (fun entry => process opts password entry) ;;
  if bool_decide (0 < verbose opts) then
    st <- gets stats ;;
    print ("total files:         " +:+ fmt_count (st_files st)) ;;
    (if lock opts then print ("total locked:        " +:+ fmt_count (st_locked st)) else ret tt) ;;
    (if unlock opts then print ("total unlocked:      " +:+ fmt_count (st_unlocked st)) else ret tt) ;;
    print ("total skipped:       " +:+ fmt_count (st_skipped st)) ;;
    print ("total bytes read:    " +:+ fmt_count (st_read st)) ;;
    print ("total bytes written: " +:+ fmt_count (st_written st))
  else ret tt.

(** The exit status of the process when [run] ends with [r]: an uncaught
    exception other than [SystemExit] prints a traceback and exits with 1. *)
Definition exit_status {A : Type} (r : result A) : nat :=
  match r with
  | Ok _ => 0
  | Raise (SystemExit n) => n
  | Raise _ => 1
  end.

(** ** What is assumed of the libraries

    [base64] decodes what it encoded; AES-CBC keeps the length of its input
    and decrypts what it encrypted under the same key and IV; the random
    source returns as many bytes as were asked for.  The laws are only
    asked of arguments that pass the checks of [AES_new], [cipher_encrypt]
    and [cipher_decrypt]. *)

Definition valid_key (k : bytes) : Prop := length k ∈ [16; 24; 32].
Definition valid_iv (iv : bytes) : Prop := length iv = AES_block_size.
Definition whole_blocks (m : bytes) : Prop := length m `mod` AES_block_size = 0.

Record LibraryLaws (L : Library) : Prop := {
  b64decode_b64encode : forall x, b64decode (b64encode x) = Some x;
  AES_CBC_encrypt_length : forall k iv m,
    valid_key k -> valid_iv iv -> whole_blocks m ->
    length (AES_CBC_encrypt k iv m) = length m;
  AES_CBC_decrypt_length : forall k iv c,
    valid_key k -> valid_iv iv -> whole_blocks c ->
    length (AES_CBC_decrypt k iv c) = length c;
  AES_CBC_decrypt_encrypt : forall k iv m,
    valid_key k -> valid_iv iv -> whole_blocks m ->
    AES_CBC_decrypt k iv (AES_CBC_encrypt k iv m) = m;
  Random_read_length : forall n, length (Random_read n) = AES_block_size
}.

(** ** A small library that satisfies the laws

    Used to run the program on concrete inputs: hexadecimal armour in
    place of base64, and in place of AES-CBC a cipher that adds to every
    byte, modulo 256, the first byte of the key and the first byte of the
    IV. *)

Module Toy.

Definition hex_digit (n : nat) : byte :=
  nth n [x30; x31; x32; x33; x34; x35; x36; x37; x38; x39;
         x61; x62; x63; x64; x65; x66] x30.

Definition hex_value (c : byte) : option nat :=
  let n := Byte.to_nat c in
  if bool_decide (48 <= n <= 57) then Some (n - 48)
  else if bool_decide (97 <= n <= 102) then Some (n - 87)
  else None.

Definition hex_encode (x : bytes) : bytes :=
  flat_map (fun b => [hex_digit (Byte.to_nat b / 16); hex_digit (Byte.to_nat b `mod` 16)]) x.

Fixpoint hex_decode_pairs (fuel : nat) (x : bytes) : option bytes :=
  match fuel, x with
  | _, [] => Some []
  | S fuel, h :: l :: rest =>
      match hex_value h, hex_value l, hex_decode_pairs fuel rest with
      | Some hv, Some lv, Some out =>
          match Byte.of_nat (16 * hv + lv) with
          | Some b => Some (b :: out)
          | None => None
          end
      | _, _, _ => None
      end
  | _, _ => None
  end.

Definition hex_decode (x : bytes) : option bytes := hex_decode_pairs (length x) x.

(** [b + n] modulo 256 *)
Definition byte_add (n : nat) (b : byte) : byte :=
  match Byte.of_nat ((Byte.to_nat b + n) `mod` 256) with
  | Some c => c
  | None => b
  end.

Definition first_byte (x : bytes) : nat :=
  match x with
  | [] => 0
  | b :: _ => Byte.to_nat b
  end.

Definition shift (k iv : bytes) : nat := (first_byte k + first_byte iv) `mod` 256.

Definition shift_encrypt (k iv m : bytes) : bytes := byte_add (shift k iv) <$> m.
Definition shift_decrypt (k iv c : bytes) : bytes := byte_add (256 - shift k iv) <$> c.

(** the [n]-th read returns sixteen copies of byte [n mod 256] *)
Definition counter_read (n : nat) : bytes := replicate 16 (byte_add n x00).

Definition lib : Library :=
  {| b64encode := hex_encode;
     b64decode := hex_decode;
     AES_CBC_encrypt := shift_encrypt;
     AES_CBC_decrypt := shift_decrypt;
     Random_read := counter_read |}.

End Toy.

(** A world with the given files, every path readable and writable, no
    directories, nothing printed and nothing done yet. *)
Definition quiet_world (fs : gmap string bytes) : world :=
  {| w_files := fs; w_dirs := ∅; w_walk := fun _ => []; w_listdir := fun _ => [];
     w_rfault := fun _ => None; w_wfault := fun _ => WriteOk;
     w_stdout := []; w_events := []; w_reads := 0; stats := stats0 |}.

Definition with_wfault (f : string -> wfault) (w : world) : world :=
  {| w_files := w_files w; w_dirs := w_dirs w; w_walk := w_walk w;
     w_listdir := w_listdir w; w_rfault := w_rfault w; w_wfault := f;
     w_stdout := w_stdout w; w_events := w_events w; w_reads := w_reads w;
     stats := stats w |}.


(** ASCII text as bytes *)
Definition bytes_of (s : string) : bytes :=
  omap (fun c => Byte.of_nat (Ascii.nat_of_ascii c)) (list_ascii_of_string s).

(** ** Notions used in the statements *)

(** The number of pad bytes [_pad] appends to a text of length [n]. *)
Definition pad_len (n : nat) : nat := 32 - n `mod` 32.

(** The blob whose ciphertext is the encryption of [s] as it is, without
    padding: what a locked file holds when the text under the cipher is
    [s]. *)
Definition raw_blob `{Library} (key iv s : bytes) : bytes :=
  b64encode (iv ++ AES_CBC_encrypt key iv s).

(** The line [_msg] writes. *)
Definition report (prefix : string) (lineno : nat) (msg : string) : string :=
  prefix +:+ ":" +:+ pretty lineno +:+ " " +:+ msg.

(** The level at which the function chosen by [get_cont_fct] reports, and
    how the call ends. *)
Definition level (opts : options) : string :=
  if cont opts then "WARNING" else "ERROR".

Definition policy (opts : options) : result unit :=
  if cont opts then Ok tt else Raise (SystemExit 1).

(** The path exists and overwriting was not asked for. *)
Definition blocked (opts : options) (w : world) (dst : string) : Prop :=
  overwrite opts = false /\ (is_Some (w_files w !! dst) \/ dst ∈ w_dirs w).

#[local] Instance blocked_dec opts w dst : Decision (blocked opts w dst).
Proof. unfold blocked. apply _. Defined.

(** The text of the [IOError] when the path cannot be read. *)
Definition read_error (w : world) (src : string) : option string :=
  match w_rfault w src with
  | Some exc => Some exc
  | None =>
      match w_files w !! src with
      | Some _ => None
      | None => Some "No such file or directory"
      end
  end.

Definition msg_exists (dst : string) : string :=
  "file exists, cannot continue: " +:+ dst.
Definition msg_read (src exc : string) : string :=
  "failed to read file " +:+ dq +:+ src +:+ dq +:+ ": " +:+ exc.
Definition msg_write (dst exc : string) : string :=
  "failed to write file " +:+ dq +:+ dst +:+ dq +:+ ": " +:+ exc.
Definition msg_cipher (what src exc : string) : string :=
  what +:+ " operation failed for " +:+ dq +:+ src +:+ dq +:+ ": " +:+ exc.

(** ** The path transition as a relation

    [attempt opts src dst T what line printed w r w'] lists the ways in
    which reading [src], transforming its content and writing [dst] can go
    from the world [w]: [T] is the codec call applied to the content read,
    [what] and [line] identify the message of a codec failure, and
    [printed] is what was written to standard output before the read. *)
Inductive attempt (opts : options) (src dst : string) (T : bytes -> result bytes)
    (what : string) (line : nat) (printed : list string) (w : world) :
    result unit -> world -> Prop :=
  | at_read_failed exc w' :
      read_error w src = Some exc ->
      w_files w' = w_files w -> w_events w' = w_events w ->
      w_stdout w' = w_stdout w ++ printed ++ [report (level opts) 249 (msg_read src exc)] ->
      attempt opts src dst T what line printed w (policy opts) w'
  | at_cipher_failed content exc w' :
      read_error w src = None -> w_files w !! src = Some content ->
      T content = Raise (ValueError exc) ->
      w_files w' = w_files w -> w_events w' = w_events w ->
      w_stdout w' = w_stdout w ++ printed ++ [report (level opts) line (msg_cipher what src exc)] ->
      attempt opts src dst T what line printed w (policy opts) w'
  | at_cipher_crashed content e w' :
      read_error w src = None -> w_files w !! src = Some content ->
      T content = Raise e -> (forall exc, e ≠ ValueError exc) ->
      w_files w' = w_files w -> w_events w' = w_events w ->
      w_stdout w' = w_stdout w ++ printed ->
      attempt opts src dst T what line printed w (Raise e) w'
  | at_open_failed content data exc w' :
      read_error w src = None -> w_files w !! src = Some content ->
      T content = Ok data ->
      w_wfault w dst = OpenFails exc ->
      w_files w' = w_files w ->
      w_events w' = w_events w ++ [EvWriteFailed dst] ->
      w_stdout w' = w_stdout w ++ printed ++ [report (level opts) 262 (msg_write dst exc)] ->
      attempt opts src dst T what line printed w (policy opts) w'
  | at_write_failed content data exc n w' :
      read_error w src = None -> w_files w !! src = Some content ->
      T content = Ok data ->
      w_wfault w dst = WriteFails exc n ->
      w_files w' = <[dst := take n data]> (w_files w) ->
      w_events w' = w_events w ++ [EvWriteFailed dst] ->
      w_stdout w' = w_stdout w ++ printed ++ [report (level opts) 262 (msg_write dst exc)] ->
      attempt opts src dst T what line printed w (policy opts) w'
  | at_written_in_place content data w' :
      read_error w src = None -> w_files w !! src = Some content ->
      T content = Ok data ->
      w_wfault w dst = WriteOk ->
      dst = src ->
      w_files w' = <[dst := data]> (w_files w) ->
      w_events w' = w_events w ++ [EvWrite dst data] ->
      w_stdout w' = w_stdout w ++ printed ->
      attempt opts src dst T what line printed w (Ok tt) w'
  | at_moved content data w' :
      read_error w src = None -> w_files w !! src = Some content ->
      T content = Ok data ->
      w_wfault w dst = WriteOk ->
      dst ≠ src ->
      w_files w' = delete src (<[dst := data]> (w_files w)) ->
      w_events w' = w_events w ++ [EvWrite dst data; EvRemove src] ->
      w_stdout w' = w_stdout w ++ printed ->
      attempt opts src dst T what line printed w (Ok tt) w'.

(** [transition] puts the existence check in front: [info] is what [infov2]
    printed first.  [lock_file] and [unlock_file] are shown below to go one
    of these ways, and no other. *)
Inductive transition (opts : options) (src dst : string) (T : bytes -> result bytes)
    (what : string) (line : nat) (info : list string) (w : world) :
    result unit -> world -> Prop :=
  (** the destination exists, overwriting was not asked for, errors are fatal *)
  | tr_blocked w' :
      blocked opts w dst -> cont opts = false ->
      w_files w' = w_files w -> w_events w' = w_events w ->
      w_stdout w' = w_stdout w ++ info ++ [report "ERROR" 236 (msg_exists dst)] ->
      transition opts src dst T what line info w (Raise (SystemExit 1)) w'
  (** the destination exists, overwriting was not asked for, errors are
      warnings: the attempt is made all the same *)
  | tr_warned r w' :
      blocked opts w dst -> cont opts = true ->
      attempt opts src dst T what line
        (info ++ [report "WARNING" 236 (msg_exists dst)]) w r w' ->
      transition opts src dst T what line info w r w'
  | tr_free r w' :
      ¬ blocked opts w dst ->
      attempt opts src dst T what line info w r w' ->
      transition opts src dst T what line info w r w'.

(** The destination of [unlock_file] for a path that ends with the suffix. *)
Definition unlock_dest (opts : options) (path : string) : string :=
  if bool_decide (0 < String.length (suffix opts))
  then str_slice_to path (- Z.of_nat (String.length (suffix opts)))
  else path.

(** What [infov2] prints. *)
Definition info_line (opts : options) (msg : string) (lineno : nat) : list string :=
  if bool_decide (1 < verbose opts) then [report "INFO" lineno msg] else [].

(** The texts [lock_file] and [unlock_file] hand to [infov2]. *)
Definition msg_lock (opts : options) (path : string) : string :=
  "lock " +:+ dq +:+ path +:+ dq +:+ " --> " +:+ dq +:+ (path +:+ suffix opts) +:+ dq.
Definition msg_unlock (opts : options) (path : string) : string :=
  "unlock " +:+ dq +:+ path +:+ dq +:+ " --> " +:+ dq +:+ unlock_dest opts path +:+ dq.

(** The world after the function chosen by [get_cont_fct] has reported. *)
Definition complain (opts : options) (lineno : nat) (msg : string) (w : world) : world :=
  set_stdout (fun out => out ++ [report (level opts) lineno msg]) w.

(** The handler of [except ValueError as exc]. *)
Definition on_ValueError (opts : options) (what src : string) (line : nat) (e : exn) :
    option (M unit) :=
  match e with
  | ValueError exc => Some (get_cont_fct opts (msg_cipher what src exc) line)
  | _ => None
  end.

(** Two worlds with the same file system, faults and events. *)
Definition same_fs (w w' : world) : Prop :=
  w_files w' = w_files w /\ w_dirs w' = w_dirs w /\ w_rfault w' = w_rfault w /\
  w_wfault w' = w_wfault w /\ w_events w' = w_events w.

(** The events a step from [w] to [w'] added. *)
Definition new_events (w w' : world) : list event :=
  drop (length (w_events w)) (w_events w').

(** Among the events [new] of one transition, a removal is the removal of
    the source, the source is not the destination, and the event just
    before it is the completed write of the destination. *)
Definition removal_after_write (src dst : string) (new : list event) : Prop :=
  forall i q, new !! i = Some (EvRemove q) ->
    q = src /\ src ≠ dst /\
    exists j data, i = S j /\ new !! j = Some (EvWrite dst data).

(** ** The per-file operation of a run

    [process_file] locks or unlocks according to [opts.lock]: the
    destination it writes, the codec call it applies to the content, and
    the paths it leaves alone. *)
Definition dest (opts : options) (path : string) : string :=
  if lock opts then path +:+ suffix opts else unlock_dest opts path.

Definition codec `{Library} (opts : options) (password : bytes) (w : world) :
    bytes -> result bytes :=
  if lock opts
  then AESCipher.encrypt (AESCipher.__init__ password) (Random_read (w_reads w))
  else AESCipher.decrypt (AESCipher.__init__ password).


(** A per-file error that stops the operation before anything is written:
    the destination exists, overwriting was not asked for and errors are
    fatal; or the source cannot be read; or the codec raises a
    [ValueError]. *)
Definition failure_before_write (opts : options) (src dst : string)
    (T : bytes -> result bytes) (w : world) : Prop :=
  (blocked opts w dst /\ cont opts = false) \/
  (exists exc, read_error w src = Some exc) \/
  (exists content exc, read_error w src = None /\ w_files w !! src = Some content /\
                       T content = Raise (ValueError exc)).

(** The per-file error of the write: the source was read and transformed,
    and the destination cannot be opened or written to the end. *)
Definition failure_in_write (src dst : string) (T : bytes -> result bytes)
    (w : world) : Prop :=
  exists content data, read_error w src = None /\ w_files w !! src = Some content /\
                       T content = Ok data /\ w_wfault w dst ≠ WriteOk.

Definition failure (opts : options) (src dst : string) (T : bytes -> result bytes)
    (w : world) : Prop :=
  failure_before_write opts src dst T w \/ failure_in_write src dst T w.

(** Projections of a world that was updated field by field. *)
Ltac world_simpl :=
  cbn [w_files w_dirs w_walk w_listdir w_rfault w_wfault w_stdout w_events w_reads stats
       set_files set_stdout set_events set_reads set_stats complain fst snd] in *.

(** No removal among events that are listed and are not removals. *)
Ltac no_removal :=
  intros;
  repeat match goal with
  | H : _ ∈ [] |- _ => by apply elem_of_nil in H
  | H : _ ∈ _ :: _ |- _ => apply elem_of_cons in H as [H|H]; [discriminate H|]
  | |- _ ∉ _ => intros ?
  end.

(** ** Relations between the world before and after a computation *)

(** [respects R m]: whatever the world [w], running [m] from it leads to a
    world related to [w] by [R], whether [m] returns or raises. *)
Definition respects {A : Type} (R : world -> world -> Prop) (m : M A) : Prop :=
  forall w, R w (m w).2.

(** The directories, the listings and the fault oracles are the same. *)
Definition same_env (w w' : world) : Prop :=
  w_dirs w' = w_dirs w /\ w_walk w' = w_walk w /\ w_listdir w' = w_listdir w /\
  w_rfault w' = w_rfault w /\ w_wfault w' = w_wfault w.

(** The files outside [S] hold what they held. *)
Definition untouched (S : string -> Prop) (w w' : world) : Prop :=
  forall p, ¬ S p -> w_files w' !! p = w_files w !! p.

(** The files counted as locked, unlocked or skipped. *)
Definition stat_done (s : statistics) : nat :=
  st_locked s + st_unlocked s + st_skipped s.

(** From [w] to [w'] the count of files done grew by at most [k] more than
    the count of files seen. *)
Definition counted_by (k : nat) (w w' : world) : Prop :=
  stat_done (stats w') + st_files (stats w) <= stat_done (stats w) + st_files (stats w') + k.

(** The paths [process_dir] hands to [process_file], but for the test
    [os.path.isfile] of the flat listing: the names that do not start with
    a dot, joined to their directory. *)
Definition visible (names : list string) : list string :=
  List.filter (fun name => negb (String.prefix "." name)) names.

Definition dir_targets (opts : options) (w : world) (path : string) : list string :=
  if negb (no_recurse opts)
  then flat_map (fun '(root, subfiles) => map (os_path_join root) (visible subfiles))
         (w_walk w path)
  else map (os_path_join path) (visible (w_listdir w path)).

(** The world with another listing of directories. *)
Definition with_listdir (f : string -> list string) (w : world) : world :=
  {| w_files := w_files w; w_dirs := w_dirs w; w_walk := w_walk w;
     w_listdir := f; w_rfault := w_rfault w; w_wfault := w_wfault w;
     w_stdout := w_stdout w; w_events := w_events w; w_reads := w_reads w;
     stats := stats w |}.

(** The text [unlock_file] hands to [infov2] for a path it skips. *)
Definition msg_skip (path : string) : string := "skip " +:+ dq +:+ path +:+ dq.

(** ** The command line and the password *)

(** The namespace [parser.parse_args()] returns: the options the run
    uses, and the ones [getopts] and [get_password] consume. *)
Record namespace : Type := {
  run_options : options;
  decrypt : bool;
  encrypt : bool;
  inplace : bool;
  password : option string;
  password_file : option string
}.

Definition set_options (f : options -> options) (ns : namespace) : namespace :=
  {| run_options := f (run_options ns); decrypt := decrypt ns; encrypt := encrypt ns;
     inplace := inplace ns; password := password ns; password_file := password_file ns |}.

Definition set_lock (b : bool) (o : options) : options :=
  {| cont := cont o; overwrite := overwrite o; suffix := suffix o; lock := b;
     unlock := unlock o; no_recurse := no_recurse o; verbose := verbose o;
     FILES := FILES o |}.

Definition set_unlock (b : bool) (o : options) : options :=
  {| cont := cont o; overwrite := overwrite o; suffix := suffix o; lock := lock o;
     unlock := b; no_recurse := no_recurse o; verbose := verbose o;
     FILES := FILES o |}.

Definition set_suffix (s : string) (o : options) : options :=
  {| cont := cont o; overwrite := overwrite o; suffix := s; lock := lock o;
     unlock := unlock o; no_recurse := no_recurse o; verbose := verbose o;
     FILES := FILES o |}.

Definition set_overwrite (b : bool) (o : options) : options :=
  {| cont := cont o; overwrite := b; suffix := suffix o; lock := lock o;
     unlock := unlock o; no_recurse := no_recurse o; verbose := verbose o;
     FILES := FILES o |}.

(** How the start of the program ends: with a value, or with the
    [NameError] of a name that is not defined anywhere. *)
Inductive startup (A : Type) : Type :=
  | Returns (a : A)
  | NameError (name : string).
Arguments Returns {A} a.
Arguments NameError {A} name.

(** [getopts], from the namespace [parse_args] returned on. *)
Definition getopts (parsed : namespace) : startup namespace :=
  let opts := parsed in
  let opts := if decrypt opts then set_options (set_unlock true) opts else opts in
  let opts := if encrypt opts then set_options (set_lock true) opts else opts in
  if lock (run_options opts) && unlock (run_options opts)
  then NameError "error"
  else
    let opts := if negb (lock (run_options opts)) && negb (unlock (run_options opts))
                then set_options (set_lock true) opts else opts in
    let opts := if inplace opts
                then set_options (set_overwrite true) (set_options (set_suffix "") opts)
                else opts in
    Returns opts.

(** What [get_password] returns: the [str] of the command line or of the
    prompt, a line of the password file, or [None]. *)
Inductive secret : Type :=
  | Str (s : string)
  | Line (b : bytes)
  | PyNone.

(** The truth value of an option that is [None] or a string. *)
Definition truthy (o : option string) : bool :=
  match o with
  | Some s => negb (bool_decide (s = EmptyString))
  | None => false
  end.

(** [ifp.readlines()]: the lines of the data, each with its newline. *)
Fixpoint readlines_from (cur : bytes) (data : bytes) : list bytes :=
  match data with
  | [] => match cur with [] => [] | _ => [rev cur] end
  | b :: rest =>
      if Byte.eqb b Byte.x0a
      then rev (b :: cur) :: readlines_from [] rest
      else readlines_from (b :: cur) rest
  end.

Definition readlines (data : bytes) : list bytes := readlines_from [] data.

(** The loop over the lines: the result of [line.strip()] is dropped, and
    [line[0]], an integer, is never equal to the string ['#']. *)
Fixpoint first_password (lines : list bytes) : option bytes :=
  match lines with
  | [] => None
  | line :: rest =>
      if bool_decide (length line = 0) then first_password rest
      else Some line
  end.

(** [get_password]; [typed] and [typed2] are what [getpass.getpass]
    returns at the two prompts. *)
Definition get_password (opts : namespace) (typed typed2 : string) : M secret :=
  if truthy (password opts) then ret (Str (default EmptyString (password opts)))
  else if truthy (password_file opts) then
    let file := default EmptyString (password_file opts) in
    exists_ <- os_path_exists file ;;
    (if exists_ then err ("password file doesn't exist: " +:+ file) 413 else ret tt) ;;
    data <- open_rb_read file ;;
    let found := first_password (readlines data) in
    (if found is None
     then err ("password was not found in file " +:+ file) 426
     else ret tt) ;;
    ret (match found with Some line => Line line | None => PyNone end)
  else
    (if bool_decide (typed ≠ typed2) then err "passwords did not match!" 434 else ret tt) ;;
    ret (Str typed).

(** * Properties *)

(** ** Padding *)

Lemma pad_len_range n : 1 <= pad_len n <= 32.
Proof.
  unfold pad_len. pose proof (Nat.mod_upper_bound n 32). lia.
Qed.

Lemma pad_table_lookup p :
  1 <= p <= 32 ->
  exists c, Byte.of_nat p = Some c /\ AESCipher.pad_table 32 !! p = Some (replicate p c).
Proof.
  intros [Hlo Hhi].
  destruct p as [|p]; [lia|].
  do 32 (destruct p as [|p]; [eexists; split; reflexivity|]).
  lia.
Qed.

Lemma _pad_with_table s :
  exists c, Byte.of_nat (pad_len (length s)) = Some c /\
    AESCipher._pad_with 32 (AESCipher.pad_table 32) s = s ++ replicate (pad_len (length s)) c.
Proof.
  destruct (pad_table_lookup (pad_len (length s)) (pad_len_range _)) as (c & Hc & Hl).
  exists c. split; [exact Hc|].
  unfold AESCipher._pad_with. fold (pad_len (length s)).
  by rewrite (list_lookup_total_correct _ _ _ Hl).
Qed.

Lemma _pad_spec key s :
  exists c, Byte.of_nat (pad_len (length s)) = Some c /\
    AESCipher._pad (AESCipher.__init__ key) s = s ++ replicate (pad_len (length s)) c.
Proof. apply _pad_with_table. Qed.

Lemma _pad_length key s :
  length (AESCipher._pad (AESCipher.__init__ key) s) = length s + pad_len (length s).
Proof.
  destruct (_pad_spec key s) as (c & _ & ->).
  by rewrite length_app, length_replicate.
Qed.

Lemma _pad_length_mod key s :
  length (AESCipher._pad (AESCipher.__init__ key) s) `mod` 32 = 0.
Proof.
  rewrite _pad_length. unfold pad_len.
  pose proof (Nat.mod_upper_bound (length s) 32).
  pose proof (Nat.div_mod_eq (length s) 32).
  replace (length s + (32 - length s `mod` 32)) with ((length s `div` 32 + 1) * 32) by lia.
  apply Nat.Div0.mod_mul.
Qed.

(** C9: for every plaintext [s], [_pad] appends exactly [p] copies of the
    byte of value [p], where [p = 32 - (len(s) mod 32)] lies in [1..32]; a
    text of 32 bytes gets 32 bytes of value 32, a text of 31 bytes one byte
    of value 1 and the empty text 32 bytes of value 32. *)
Theorem C9_pad_appends_p_copies_of_p (key s : bytes) :
  let p := 32 - length s `mod` 32 in
  (1 <= p <= 32 /\
   exists c, Byte.to_nat c = p /\
     AESCipher._pad (AESCipher.__init__ key) s = s ++ replicate p c) /\
  (length s = 32 -> AESCipher._pad (AESCipher.__init__ key) s = s ++ replicate 32 x20) /\
  (length s = 31 -> AESCipher._pad (AESCipher.__init__ key) s = s ++ [x01]) /\
  (length s = 0 -> AESCipher._pad (AESCipher.__init__ key) s = replicate 32 x20).
Proof.
  intros p.
  destruct (_pad_spec key s) as (c & Hc & Hpad).
  fold (pad_len (length s)) in p. subst p.
  split; [|split; [|split]].
  - split; [apply pad_len_range|].
    exists c. split; [by apply Byte.to_of_nat|exact Hpad].
  - intros Hlen. rewrite Hpad. unfold pad_len in *. rewrite Hlen in *.
    simpl in Hc. by inversion Hc.
  - intros Hlen. rewrite Hpad. unfold pad_len in *. rewrite Hlen in *.
    simpl in Hc. by inversion Hc.
  - intros Hlen. rewrite Hpad. unfold pad_len in *. rewrite Hlen in *.
    simpl in Hc. inversion Hc. by destruct s.
Qed.

Lemma C9_pad_witness :
  AESCipher._pad (AESCipher.__init__ (bytes_of "secret")) (replicate 31 x61)
    = replicate 31 x61 ++ [x01].
Proof.
  apply (C9_pad_appends_p_copies_of_p (bytes_of "secret") (replicate 31 x61)).
  reflexivity.
Defined.

(** ** Key normalisation *)

(** C8: the key [AESCipher] keeps is always exactly 32 bytes long: the
    first 32 bytes of a password of 32 bytes or more, and otherwise the
    password extended by the pad rule ([p] copies of byte [p], with
    [p = 32 - len(password)]), of which the first 32 bytes are all there
    is. *)
Theorem C8_key_is_32_bytes (password : bytes) :
  let key := AESCipher.m_key (AESCipher.__init__ password) in
  length key = 32 /\
  (32 <= length password -> key = take 32 password) /\
  (length password < 32 ->
     key = AESCipher._pad (AESCipher.__init__ password) password /\
     exists c, Byte.to_nat c = 32 - length password /\
       key = take 32 (password ++ replicate (32 - length password) c)).
Proof.
  intros key.
  assert (Hkey : key = if bool_decide (32 <= length password)
                       then take 32 password
                       else AESCipher._pad_with 32 (AESCipher.pad_table 32) password)
    by reflexivity.
  clearbody key.
  change (AESCipher._pad (AESCipher.__init__ password) password)
    with (AESCipher._pad_with 32 (AESCipher.pad_table 32) password).
  case_bool_decide as Hlen; subst key.
  - split; [|split].
    + rewrite length_take. lia.
    + done.
    + intros; lia.
  - assert (Hmod : length password `mod` 32 = length password)
      by (apply Nat.mod_small; lia).
    destruct (_pad_with_table password) as (c & Hc & Hpad).
    unfold pad_len in Hc, Hpad. rewrite Hmod in Hc, Hpad.
    split; [|split].
    + rewrite Hpad, length_app, length_replicate. lia.
    + intros; lia.
    + intros _. split; [done|].
      exists c. split; [by apply Byte.to_of_nat|].
      rewrite Hpad, take_ge; [done|].
      rewrite length_app, length_replicate. lia.
Qed.

Lemma C8_key_witness :
  Forall (fun n => length (AESCipher.m_key (AESCipher.__init__ (replicate n x61))) = 32)
    [0; 1; 31; 32; 33; 1000] /\
  AESCipher.m_key (AESCipher.__init__ (replicate 33 x61)) = replicate 32 x61.
Proof.
  split.
  - repeat constructor; apply (C8_key_is_32_bytes (replicate _ x61)).
  - apply (C8_key_is_32_bytes (replicate 33 x61)). rewrite length_replicate. lia.
Defined.

(** ** Unpadding *)

Lemma slice_to_neg {A : Type} (s : list A) (u : nat) :
  slice_to s (- Z.of_nat u) =
    if bool_decide (u = 0) then [] else take (length s - u) s.
Proof.
  unfold slice_to. case_bool_decide as Hu.
  - subst u. reflexivity.
  - destruct (Z.ltb_spec (- Z.of_nat u) 0) as [_|?]; [|lia].
    f_equal. lia.
Qed.

Lemma _unpad_spec (s : bytes) (c : byte) :
  last s = Some c ->
  AESCipher._unpad s =
    Ok (if bool_decide (Byte.to_nat c = 0) then [] else take (length s - Byte.to_nat c) s).
Proof.
  intros Hlast. unfold AESCipher._unpad. rewrite Hlast.
  by rewrite slice_to_neg.
Qed.

(** C7 as stated is false: when the last byte is 0, nothing should be
    stripped, and [_unpad] returns the empty sequence. *)
Lemma C7_counterexample :
  ~ (forall (s : bytes) (c : byte), last s = Some c ->
       exists r t, AESCipher._unpad s = Ok r /\ s = r ++ t /\ length t = Byte.to_nat c).
Proof.
  intros H.
  destruct (H [x61; x62; x00] x00 eq_refl) as (r & t & Hr & Hs & Ht).
  vm_compute in Hr. inversion Hr; subst r.
  simpl in Hs. subst t. discriminate Ht.
Qed.

(** C7, amended: for every non-empty [s] whose last byte has value [u],
    [_unpad] returns [s] without its final [u] bytes when [1 <= u <= len(s)],
    whatever those bytes are, and the empty sequence when [u = 0] or
    [u > len(s)]; it never fails on a non-empty [s]. *)
Theorem C7_unpad_strips_by_last_byte (s : bytes) (c : byte) :
  last s = Some c ->
  let u := Byte.to_nat c in
  (1 <= u <= length s ->
     exists t, s = take (length s - u) s ++ t /\ length t = u /\
       AESCipher._unpad s = Ok (take (length s - u) s)) /\
  (u = 0 \/ length s < u -> AESCipher._unpad s = Ok []).
Proof.
  intros Hlast u. rewrite (_unpad_spec s c Hlast). fold u.
  split.
  - intros [Hlo Hhi]. exists (drop (length s - u) s).
    split; [by rewrite take_drop|].
    split; [rewrite length_drop; lia|].
    case_bool_decide; [lia|done].
  - intros [Hu|Hu]; case_bool_decide; try done.
    f_equal. by replace (length s - u) with 0 by lia.
Qed.

Lemma C7_unpad_witness :
  AESCipher._unpad [x61; x62; x63; x02] = Ok [x61; x62] /\
  AESCipher._unpad [x61; x62; x63; x09] = Ok [] /\
  AESCipher._unpad [x61; x62; x63; x00] = Ok [].
Proof.
  pose proof (C7_unpad_strips_by_last_byte [x61; x62; x63; x02] x02 eq_refl) as [H2 _].
  pose proof (C7_unpad_strips_by_last_byte [x61; x62; x63; x09] x09 eq_refl) as [_ H9].
  pose proof (C7_unpad_strips_by_last_byte [x61; x62; x63; x00] x00 eq_refl) as [_ H0].
  split; [|split].
  - destruct H2 as (t & _ & _ & ->); [simpl; lia|reflexivity].
  - apply H9. right. simpl. lia.
  - apply H0. left. reflexivity.
Defined.

(** ** The small library satisfies the laws *)

Module ToyFacts.
Import Toy.

Lemma hex_byte (a : byte) :
  hex_value (hex_digit (Byte.to_nat a / 16)) = Some (Byte.to_nat a / 16) /\
  hex_value (hex_digit (Byte.to_nat a `mod` 16)) = Some (Byte.to_nat a `mod` 16) /\
  Byte.of_nat (16 * (Byte.to_nat a / 16) + Byte.to_nat a `mod` 16) = Some a.
Proof. destruct a; vm_compute; done. Qed.

Lemma hex_decode_pairs_encode (x : bytes) :
  forall fuel, length (hex_encode x) <= fuel ->
    hex_decode_pairs fuel (hex_encode x) = Some x.
Proof.
  induction x as [|a x IH]; intros fuel Hfuel.
  - by destruct fuel.
  - cbn [hex_encode flat_map app] in *. fold (hex_encode x) in *.
    destruct fuel as [|fuel]; [simpl in Hfuel; lia|].
    cbn [hex_decode_pairs].
    destruct (hex_byte a) as (-> & -> & Ha).
    rewrite IH by (simpl in Hfuel; lia).
    by rewrite Ha.
Qed.

Lemma hex_decode_encode (x : bytes) : hex_decode (hex_encode x) = Some x.
Proof. by apply hex_decode_pairs_encode. Qed.

Lemma to_nat_byte_add (n : nat) (a : byte) :
  Byte.to_nat (byte_add n a) = (Byte.to_nat a + n) `mod` 256.
Proof.
  unfold byte_add.
  destruct (Byte.of_nat ((Byte.to_nat a + n) `mod` 256)) as [c|] eqn:Hc.
  - by apply Byte.to_of_nat.
  - apply Byte.of_nat_None_iff in Hc.
    pose proof (Nat.mod_upper_bound (Byte.to_nat a + n) 256). lia.
Qed.

Lemma to_nat_inj (a c : byte) : Byte.to_nat a = Byte.to_nat c -> a = c.
Proof.
  intros Heq. pose proof (Byte.of_to_nat a) as Ha.
  rewrite Heq, Byte.of_to_nat in Ha. by inversion Ha.
Qed.

Lemma byte_add_inverse (s : nat) (a : byte) :
  s < 256 -> byte_add (256 - s) (byte_add s a) = a.
Proof.
  intros Hs. apply to_nat_inj.
  rewrite !to_nat_byte_add.
  pose proof (Byte.to_nat_bounded a).
  destruct (decide (Byte.to_nat a + s < 256)) as [Hlt|Hge].
  - rewrite (Nat.mod_small (Byte.to_nat a + s)) by lia.
    replace (Byte.to_nat a + s + (256 - s)) with (Byte.to_nat a + 1 * 256) by lia.
    rewrite Nat.Div0.mod_add. apply Nat.mod_small. lia.
  - replace (Byte.to_nat a + s) with ((Byte.to_nat a + s - 256) + 1 * 256) by lia.
    rewrite Nat.Div0.mod_add.
    rewrite (Nat.mod_small (Byte.to_nat a + s - 256)) by lia.
    replace (Byte.to_nat a + s - 256 + (256 - s)) with (Byte.to_nat a) by lia.
    apply Nat.mod_small. lia.
Qed.

Lemma shift_decrypt_encrypt (k iv m : bytes) :
  shift_decrypt k iv (shift_encrypt k iv m) = m.
Proof.
  unfold shift_decrypt, shift_encrypt.
  rewrite <- list_fmap_compose.
  rewrite <- (list_fmap_id m) at 2.
  apply list_fmap_ext. intros _ a _. simpl.
  apply byte_add_inverse. apply Nat.mod_upper_bound. lia.
Qed.

Lemma laws : LibraryLaws lib.
Proof.
  split; simpl.
  - apply hex_decode_encode.
  - intros. apply length_fmap.
  - intros. apply length_fmap.
  - intros. apply shift_decrypt_encrypt.
  - intros. reflexivity.
Qed.

End ToyFacts.

(** ** The codec *)

Lemma m_key_length (password : bytes) :
  length (AESCipher.m_key (AESCipher.__init__ password)) = 32.
Proof.
  unfold AESCipher.__init__. cbn [AESCipher.m_key].
  case_bool_decide as Hlen.
  - rewrite length_take. lia.
  - destruct (_pad_with_table password) as (c & _ & ->).
    rewrite length_app, length_replicate. unfold pad_len.
    rewrite Nat.mod_small; lia.
Qed.

Lemma m_key_valid (password : bytes) :
  valid_key (AESCipher.m_key (AESCipher.__init__ password)).
Proof. unfold valid_key. rewrite m_key_length. set_solver. Qed.

Lemma AES_new_ok (key iv : bytes) :
  valid_key key -> valid_iv iv -> AES_new key iv = Ok {| c_key := key; c_iv := iv |}.
Proof.
  intros Hk Hiv. unfold AES_new.
  rewrite bool_decide_eq_true_2 by exact Hiv.
  by rewrite bool_decide_eq_true_2 by exact Hk.
Qed.

Lemma AES_new_short_iv (key iv : bytes) :
  length iv ≠ 16 -> AES_new key iv = Raise (ValueError "IV must be 16 bytes long").
Proof.
  intros Hiv. unfold AES_new.
  by rewrite bool_decide_eq_false_2 by exact Hiv.
Qed.

Lemma mod_32_16 (n : nat) : n `mod` 32 = 0 -> n `mod` 16 = 0.
Proof.
  intros H. pose proof (Nat.div_mod_eq n 32) as Hn. rewrite H in Hn.
  replace n with ((2 * (n `div` 32)) * 16) by lia.
  apply Nat.Div0.mod_mul.
Qed.

Lemma _pad_whole_blocks key s :
  whole_blocks (AESCipher._pad (AESCipher.__init__ key) s).
Proof. apply mod_32_16, _pad_length_mod. Qed.

Section Codec.
Context `{L : Library}.

(** [encrypt] never raises when the IV is one block long. *)
Lemma encrypt_ok (password iv raw : bytes) :
  valid_iv iv ->
  AESCipher.encrypt (AESCipher.__init__ password) iv raw =
    Ok (b64encode (iv ++ AES_CBC_encrypt (AESCipher.m_key (AESCipher.__init__ password)) iv
                           (AESCipher._pad (AESCipher.__init__ password) raw))).
Proof.
  intros Hiv. unfold AESCipher.encrypt.
  rewrite (AES_new_ok _ _ (m_key_valid password) Hiv).
  unfold cipher_encrypt. cbn [c_key c_iv].
  by rewrite bool_decide_eq_true_2 by apply _pad_whole_blocks.
Qed.

(** What [decrypt] does with a blob that base64 decodes to [raw]. *)
Lemma decrypt_decoded (password enc raw : bytes) :
  b64decode enc = Some raw ->
  AESCipher.decrypt (AESCipher.__init__ password) enc =
    if bool_decide (length raw < 16)
    then Raise (ValueError "IV must be 16 bytes long")
    else if bool_decide (length raw `mod` 16 = 0)
    then AESCipher._unpad
           (AES_CBC_decrypt (AESCipher.m_key (AESCipher.__init__ password))
              (take 16 raw) (drop 16 raw))
    else Raise (ValueError "Input strings must be a multiple of 16 in length").
Proof.
  intros Hraw. unfold AESCipher.decrypt. rewrite Hraw.
  unfold AES_block_size.
  case_bool_decide as Hshort.
  - rewrite AES_new_short_iv; [done|]. rewrite length_take. lia.
  - rewrite AES_new_ok; [|apply m_key_valid|].
    2:{ unfold valid_iv, AES_block_size. rewrite length_take. lia. }
    unfold cipher_decrypt, AES_block_size. cbn [c_key c_iv].
    rewrite length_drop.
    assert (Hmod : (length raw - 16) `mod` 16 = length raw `mod` 16).
    { replace (length raw) with ((length raw - 16) + 1 * 16) at 2 by lia.
      by rewrite Nat.Div0.mod_add. }
    rewrite Hmod. by repeat case_bool_decide.
Qed.

Lemma decrypt_undecodable (password enc : bytes) :
  b64decode enc = None ->
  AESCipher.decrypt (AESCipher.__init__ password) enc =
    Raise (ValueError "Incorrect padding").
Proof. intros Hraw. unfold AESCipher.decrypt. by rewrite Hraw. Qed.

Context (Laws : LibraryLaws L).

(** Decrypting, under any password, a blob that [encrypt] made. *)
Lemma decrypt_encrypted (pw1 pw2 iv raw : bytes) :
  valid_iv iv ->
  AESCipher.decrypt (AESCipher.__init__ pw2)
    (b64encode (iv ++ AES_CBC_encrypt (AESCipher.m_key (AESCipher.__init__ pw1)) iv
                        (AESCipher._pad (AESCipher.__init__ pw1) raw))) =
  AESCipher._unpad
    (AES_CBC_decrypt (AESCipher.m_key (AESCipher.__init__ pw2)) iv
       (AES_CBC_encrypt (AESCipher.m_key (AESCipher.__init__ pw1)) iv
          (AESCipher._pad (AESCipher.__init__ pw1) raw))).
Proof.
  intros Hiv.
  set (ct := AES_CBC_encrypt _ iv _).
  assert (Hct : length ct = length (AESCipher._pad (AESCipher.__init__ pw1) raw)).
  { apply (AES_CBC_encrypt_length L Laws); [apply m_key_valid|done|apply _pad_whole_blocks]. }
  rewrite (decrypt_decoded pw2 _ (iv ++ ct)) by apply (b64decode_b64encode L Laws).
  unfold valid_iv, AES_block_size in Hiv.
  rewrite length_app, Hiv.
  rewrite bool_decide_eq_false_2 by lia.
  rewrite bool_decide_eq_true_2.
  2:{ rewrite Hct. replace (16 + _) with (length (AESCipher._pad (AESCipher.__init__ pw1) raw) + 1 * 16) by lia.
      rewrite Nat.Div0.mod_add. apply _pad_whole_blocks. }
  rewrite take_app_length' by done.
  by rewrite drop_app_length' by done.
Qed.

Lemma _unpad_pad (key raw : bytes) :
  AESCipher._unpad (AESCipher._pad (AESCipher.__init__ key) raw) = Ok raw.
Proof.
  destruct (_pad_spec key raw) as (c & Hc & ->).
  pose proof (pad_len_range (length raw)) as Hp.
  apply Byte.to_of_nat in Hc.
  rewrite (_unpad_spec _ c).
  - rewrite Hc, bool_decide_eq_false_2 by lia.
    rewrite length_app, length_replicate.
    replace (length raw + pad_len (length raw) - pad_len (length raw)) with (length raw) by lia.
    by rewrite take_app_length.
  - destruct (pad_len (length raw)) as [|n] eqn:Hn; [lia|].
    rewrite replicate_S_end, app_assoc. apply last_snoc.
Qed.

End Codec.

(** C3: for every byte sequence [p] and every key [k] (a password of any
    length, so in particular every 32-byte key, which [AESCipher] keeps as
    it is), [encrypt] returns a blob, whatever the 16-byte IV drawn for it,
    and [decrypt] under the same key returns [p]. *)
Theorem C3_decrypt_encrypt_round_trip (L : Library) (k iv p : bytes) :
  LibraryLaws L ->
  length iv = 16 ->
  (length k = 32 -> AESCipher.m_key (AESCipher.__init__ k) = k) /\
  exists blob,
    AESCipher.encrypt (AESCipher.__init__ k) iv p = Ok blob /\
    AESCipher.decrypt (AESCipher.__init__ k) blob = Ok p.
Proof.
  intros Laws Hiv. split.
  - intros Hk. unfold AESCipher.__init__. cbn [AESCipher.m_key].
    rewrite bool_decide_eq_true_2 by lia.
    apply take_ge. lia.
  - eexists. split; [by apply encrypt_ok|].
    rewrite decrypt_encrypted by done.
    rewrite (AES_CBC_decrypt_encrypt L Laws);
      [apply _unpad_pad|apply m_key_valid|done|apply _pad_whole_blocks].
Qed.

Lemma C3_round_trip_witness :
  exists blob,
    AESCipher.encrypt (H := Toy.lib) (AESCipher.__init__ (replicate 32 x6b))
      (Toy.counter_read 7) (replicate 64 x70) = Ok blob /\
    AESCipher.decrypt (H := Toy.lib) (AESCipher.__init__ (replicate 32 x6b)) blob
      = Ok (replicate 64 x70).
Proof.
  apply (C3_decrypt_encrypt_round_trip Toy.lib (replicate 32 x6b) (Toy.counter_read 7)
           (replicate 64 x70) ToyFacts.laws).
  reflexivity.
Defined.

(** C10: two passwords of at least 32 bytes that agree on their first 32
    bytes give the same [AESCipher] object, hence the same [encrypt] (for
    the same IV) and [decrypt] results and the same [lock_file] and
    [unlock_file] runs: the bytes beyond the 32nd are never looked at. *)
Theorem C10_password_tail_ignored (L : Library) (pw1 pw2 : bytes) :
  32 <= length pw1 ->
  32 <= length pw2 ->
  take 32 pw1 = take 32 pw2 ->
  AESCipher.__init__ pw1 = AESCipher.__init__ pw2 /\
  (forall iv raw,
     AESCipher.encrypt (AESCipher.__init__ pw1) iv raw =
     AESCipher.encrypt (AESCipher.__init__ pw2) iv raw) /\
  (forall enc,
     AESCipher.decrypt (AESCipher.__init__ pw1) enc =
     AESCipher.decrypt (AESCipher.__init__ pw2) enc) /\
  (forall opts path w,
     lock_file opts pw1 path w = lock_file opts pw2 path w /\
     unlock_file opts pw1 path w = unlock_file opts pw2 path w).
Proof.
  intros H1 H2 Heq.
  assert (Hinit : AESCipher.__init__ pw1 = AESCipher.__init__ pw2).
  { unfold AESCipher.__init__.
    rewrite !bool_decide_eq_true_2 by lia.
    by rewrite Heq. }
  split; [exact Hinit|].
  split; [intros; by rewrite Hinit|].
  split; [intros; by rewrite Hinit|].
  intros opts path w. unfold lock_file, unlock_file.
  by rewrite Hinit.
Qed.

Lemma C10_password_tail_witness :
  AESCipher.__init__ (replicate 32 x61 ++ bytes_of "one") =
  AESCipher.__init__ (replicate 32 x61 ++ bytes_of "another").
Proof.
  apply (C10_password_tail_ignored Toy.lib
           (replicate 32 x61 ++ bytes_of "one") (replicate 32 x61 ++ bytes_of "another"));
    [vm_compute; lia | vm_compute; lia | reflexivity].
Defined.

(** ** When [decrypt] fails *)

Section DecryptFailures.
Context `{L : Library} (Laws : LibraryLaws L).

(** A blob of at least two blocks, a whole number of them: [decrypt]
    returns, whatever the last byte of the decrypted text. *)
Lemma decrypt_well_formed (password enc raw : bytes) :
  b64decode enc = Some raw ->
  32 <= length raw ->
  length raw `mod` 16 = 0 ->
  let s := AES_CBC_decrypt (AESCipher.m_key (AESCipher.__init__ password))
             (take 16 raw) (drop 16 raw) in
  exists c, last s = Some c /\
    AESCipher.decrypt (AESCipher.__init__ password) enc =
      Ok (if bool_decide (Byte.to_nat c = 0) then []
          else take (length s - Byte.to_nat c) s).
Proof.
  intros Hraw Hlen Hmod s.
  rewrite (decrypt_decoded password enc raw Hraw).
  rewrite bool_decide_eq_false_2 by lia.
  rewrite bool_decide_eq_true_2 by done.
  fold s.
  assert (Hs : length s = length raw - 16).
  { unfold s. rewrite (AES_CBC_decrypt_length L Laws).
    - apply length_drop.
    - apply m_key_valid.
    - unfold valid_iv, AES_block_size. rewrite length_take. lia.
    - unfold whole_blocks, AES_block_size. rewrite length_drop.
      replace (length raw) with ((length raw - 16) + 1 * 16) in Hmod by lia.
      by rewrite Nat.Div0.mod_add in Hmod. }
  destruct (last s) as [c|] eqn:Hlast.
  - exists c. split; [done|]. by apply _unpad_spec.
  - apply last_None in Hlast. rewrite Hlast in Hs. simpl in Hs. lia.
Qed.


(** Decrypting the blob made of a text [s] taken as it is. *)
Lemma decrypt_raw_blob (password iv s : bytes) :
  valid_iv iv -> whole_blocks s ->
  AESCipher.decrypt (AESCipher.__init__ password)
    (raw_blob (AESCipher.m_key (AESCipher.__init__ password)) iv s) =
  AESCipher._unpad s.
Proof.
  intros Hiv Hs. unfold raw_blob.
  set (key := AESCipher.m_key _).
  set (ct := AES_CBC_encrypt key iv s).
  assert (Hct : length ct = length s)
    by (apply (AES_CBC_encrypt_length L Laws); [apply m_key_valid|done..]).
  rewrite (decrypt_decoded password _ (iv ++ ct)) by apply (b64decode_b64encode L Laws).
  unfold valid_iv, whole_blocks, AES_block_size in *.
  rewrite length_app, Hiv, Hct.
  rewrite bool_decide_eq_false_2 by lia.
  rewrite bool_decide_eq_true_2.
  2:{ replace (16 + length s) with (length s + 1 * 16) by lia.
      by rewrite Nat.Div0.mod_add. }
  rewrite take_app_length', drop_app_length' by done.
  fold key. unfold ct.
  by rewrite (AES_CBC_decrypt_encrypt L Laws) by (try apply m_key_valid; done).
Qed.

End DecryptFailures.

(** C4 as stated is false: here the text under the cipher ends in a byte of
    value 200, outside [1, 32], and [decrypt] does not fail: it returns the
    empty sequence.  By [decrypt_raw_blob] the same blob is decrypted to
    the same result under every library that satisfies the laws. *)
Lemma C4_counterexample :
  let self := AESCipher.__init__ (bytes_of "secret") in
  let s := replicate 31 x41 ++ [xc8] in
  let blob := raw_blob (H := Toy.lib) (AESCipher.m_key self) (Toy.counter_read 0) s in
  exists raw,
    b64decode (Library := Toy.lib) blob = Some raw /\
    length raw = 16 + 32 /\
    AES_CBC_decrypt (Library := Toy.lib) (AESCipher.m_key self) (take 16 raw) (drop 16 raw) = s /\
    last s = Some xc8 /\ Byte.to_nat xc8 = 200 /\
    AESCipher.decrypt (H := Toy.lib) self blob = Ok [].
Proof.
  eexists. split; [vm_compute; reflexivity|].
  repeat split; vm_compute; reflexivity.
Qed.

(** C4, amended: [decrypt] fails with a [ValueError] when base64 decoding
    fails, when the decoded blob is shorter than the 16 bytes of an IV, and
    when its length is not a multiple of 16.  When the decoded length is 16
    plus a positive multiple of 16, [decrypt] does not fail, whatever the
    last byte [u] of the decrypted text: it returns that text without its
    final [u] bytes, and the empty sequence when [u = 0] or [u] exceeds its
    length; a pad byte outside [1, 32] is not detected. *)
Theorem C4_decrypt_failures (L : Library) (password enc : bytes) :
  LibraryLaws L ->
  let self := AESCipher.__init__ password in
  (b64decode enc = None -> exists m, AESCipher.decrypt self enc = Raise (ValueError m)) /\
  (forall raw, b64decode enc = Some raw ->
     (length raw < 16 \/ length raw `mod` 16 ≠ 0 ->
        exists m, AESCipher.decrypt self enc = Raise (ValueError m)) /\
     (16 < length raw -> length raw `mod` 16 = 0 ->
        let s := AES_CBC_decrypt (AESCipher.m_key self) (take 16 raw) (drop 16 raw) in
        exists c, last s = Some c /\
          (1 <= Byte.to_nat c <= length s ->
             AESCipher.decrypt self enc = Ok (take (length s - Byte.to_nat c) s)) /\
          (Byte.to_nat c = 0 \/ length s < Byte.to_nat c ->
             AESCipher.decrypt self enc = Ok []))).
Proof.
  intros Laws self. subst self. split.
  - intros Hnone. eexists. by apply decrypt_undecodable.
  - intros raw Hraw. split.
    + intros Hbad. rewrite (decrypt_decoded password enc raw Hraw).
      case_bool_decide; [by eexists|].
      case_bool_decide; [|by eexists].
      destruct Hbad; [lia|done].
    + intros Hlen Hmod s.
      assert (Hlen32 : 32 <= length raw).
      { pose proof (Nat.div_mod_eq (length raw) 16). rewrite Hmod in *. lia. }
      destruct (decrypt_well_formed Laws password enc raw Hraw Hlen32 Hmod) as (c & Hc & Hdec).
      exists c. split; [exact Hc|]. fold s in Hdec. rewrite Hdec.
      split.
      * intros [Hlo Hhi]. by rewrite bool_decide_eq_false_2 by lia.
      * intros [Hu|Hu]; case_bool_decide; try done.
        f_equal. by replace (length s - Byte.to_nat c) with 0 by lia.
Qed.

Lemma C4_decrypt_failures_witness :
  (exists m, AESCipher.decrypt (H := Toy.lib) (AESCipher.__init__ (bytes_of "secret"))
               (bytes_of "not hexadecimal") = Raise (ValueError m)) /\
  (exists m, AESCipher.decrypt (H := Toy.lib) (AESCipher.__init__ (bytes_of "secret"))
               (bytes_of "00ff") = Raise (ValueError m)).
Proof.
  pose proof (C4_decrypt_failures Toy.lib (bytes_of "secret") (bytes_of "not hexadecimal")
                ToyFacts.laws) as [Hundecodable _].
  pose proof (C4_decrypt_failures Toy.lib (bytes_of "secret") (bytes_of "00ff")
                ToyFacts.laws) as [_ Hshort].
  split.
  - apply Hundecodable. reflexivity.
  - apply (Hshort [x00; xff]); [reflexivity|]. left. simpl. lia.
Defined.

(** ** The path transition

    Each step of [lock_file] and [unlock_file] as an equation, and the two
    functions as instances of [transition]. *)

Lemma get_cont_fct_run opts msg lineno w :
  get_cont_fct opts msg lineno w = (policy opts, complain opts lineno msg w).
Proof. unfold get_cont_fct, policy, complain, level. by destruct (cont opts). Qed.

Lemma infov2_run opts msg lineno w :
  infov2 opts msg lineno w = (Ok tt, set_stdout (fun out => out ++ info_line opts msg lineno) w).
Proof.
  unfold infov2, info_line. case_bool_decide; [done|].
  destruct w. unfold ret, set_stdout. simpl. by rewrite app_nil_r.
Qed.

Lemma check_existence_run opts dst w :
  check_existence opts dst w =
    if decide (blocked opts w dst)
    then (policy opts, complain opts 236 (msg_exists dst) w)
    else (Ok tt, w).
Proof.
  unfold check_existence, bind, os_path_exists, gets.
  destruct (decide (blocked opts w dst)) as [[Hov Hex]|Hfree].
  - rewrite Hov. simpl.
    replace (bool_decide (is_Some (w_files w !! dst)) || bool_decide (dst ∈ w_dirs w)) with true.
    + apply get_cont_fct_run.
    + symmetry. rewrite orb_true_iff, !bool_decide_eq_true. exact Hex.
  - destruct (negb (overwrite opts) && _) eqn:Hb; [|done].
    exfalso. apply Hfree. apply andb_true_iff in Hb as [Hov Hex].
    split; [by destruct (overwrite opts)|].
    by rewrite orb_true_iff, !bool_decide_eq_true in Hex.
Qed.

Lemma read_file_run opts src w :
  read_file opts src w =
    match read_error w src, w_files w !! src with
    | Some exc, _ =>
        (match policy opts with Ok _ => Ok None | Raise e => Raise e end,
         complain opts 249 (msg_read src exc) w)
    | None, Some data => (Ok (Some data), set_stats (stat_add read (length data)) w)
    | None, None => (Ok None, w)
    end.
Proof.
  unfold read_file, read_error, try_except, bind, open_rb_read, modify, ret.
  destruct (w_rfault w src) as [exc|].
  - rewrite get_cont_fct_run. unfold policy. by destruct (cont opts).
  - destruct (w_files w !! src) as [data|]; [done|].
    rewrite get_cont_fct_run. unfold policy. by destruct (cont opts).
Qed.

Lemma write_file_run opts dst data w :
  write_file opts dst data w =
    match w_wfault w dst with
    | WriteOk =>
        (Ok true,
         set_stats (stat_add written (length data))
           (set_events (fun l => l ++ [EvWrite dst data]) (set_files (insert dst data) w)))
    | OpenFails exc =>
        (match policy opts with Ok _ => Ok false | Raise e => Raise e end,
         complain opts 262 (msg_write dst exc)
           (set_events (fun l => l ++ [EvWriteFailed dst]) w))
    | WriteFails exc n =>
        (match policy opts with Ok _ => Ok false | Raise e => Raise e end,
         complain opts 262 (msg_write dst exc)
           (set_events (fun l => l ++ [EvWriteFailed dst])
              (set_files (insert dst (take n data)) w)))
    end.
Proof.
  unfold write_file, try_except, bind, open_wb_write, modify, ret.
  destruct (w_wfault w dst); [done|..];
    rewrite get_cont_fct_run; unfold policy; by destruct (cont opts).
Qed.


Lemma blocked_frame opts w w' dst :
  same_fs w w' -> blocked opts w' dst <-> blocked opts w dst.
Proof. intros (Hf & Hd & _). unfold blocked. by rewrite Hf, Hd. Qed.

Lemma read_error_frame w w' src :
  same_fs w w' -> read_error w' src = read_error w src.
Proof. intros (Hf & _ & Hr & _). unfold read_error. by rewrite Hf, Hr. Qed.

Lemma read_error_None w src :
  read_error w src = None -> exists content, w_files w !! src = Some content.
Proof.
  unfold read_error. destruct (w_rfault w src); [done|].
  destruct (w_files w !! src); [eauto|done].
Qed.

Lemma bind_run {A B : Type} (m : M A) (k : A -> M B) (w w' : world) (r : result A) :
  m w = (r, w') ->
  bind m k w = match r with Ok a => k a w' | Raise e => (Raise e, w') end.
Proof. intros Hm. unfold bind. by rewrite Hm. Qed.

Lemma attempt_sound opts src dst (C : bytes -> M bytes) (T : bytes -> result bytes)
    key what line printed w0 w1 r w' :
  same_fs w0 w1 ->
  w_reads w1 = w_reads w0 ->
  w_stdout w1 = w_stdout w0 ++ printed ->
  (forall content w, w_reads w = w_reads w0 ->
     (C content w).1 = T content /\ same_fs w (C content w).2 /\
     w_stdout (C content w).2 = w_stdout w) ->
  (content <- read_file opts src ;;
   match content with
   | Some content =>
       try_except
         (data <- C content ;;
          ok <- write_file opts dst data ;;
          if ok then
            (if bool_decide (dst ≠ src) then os_remove src else ret tt) ;;
            modify (set_stats (stat_add key 1))
          else ret tt)
         (on_ValueError opts what src line)
   | None => ret tt
   end) w1 = (r, w') ->
  attempt opts src dst T what line printed w0 r w'.
Proof.
  intros Hfs Hreads Hout HC.
  unfold bind at 1. rewrite read_file_run.
  rewrite (read_error_frame w0 w1 src Hfs).
  destruct Hfs as (Hfiles & Hdirs & Hrf & Hwf & Hev).
  rewrite Hfiles.
  destruct (read_error w0 src) as [exc|] eqn:Hread.
  - (* the read fails *)
    intros Hrun.
    assert (r = policy opts /\ w' = complain opts 249 (msg_read src exc) w1) as [-> ->].
    { unfold policy in *. destruct (cont opts); by inversion Hrun. }
    apply (at_read_failed _ _ _ _ _ _ _ _ exc); world_simpl; try done.
    by rewrite Hout, <- app_assoc.
  - destruct (read_error_None _ _ Hread) as [content Hcontent].
    rewrite Hcontent.
    unfold try_except.
    destruct (HC content (set_stats (stat_add read (length content)) w1) Hreads)
      as (HT & (Hf2 & Hd2 & Hrf2 & Hwf2 & Hev2) & Hout2).
    destruct (C content _) as [rc w2] eqn:HCrun. simpl in HT, Hf2, Hwf2, Hev2, Hout2.
    world_simpl.
    rewrite (bind_run _ _ _ _ _ HCrun).
    destruct rc as [data|e].
    + (* the codec returns *)
      unfold bind at 1. rewrite write_file_run.
      rewrite Hwf2, Hwf.
      destruct (w_wfault w0 dst) as [|wexc|wexc n] eqn:Hfault.
      * (* written *)
        case_bool_decide as Hne.
        -- unfold bind, os_remove, modify. world_simpl.
           rewrite lookup_insert_ne by done.
           rewrite Hf2, Hfiles, Hcontent.
           intros [= <- <-].
           eapply at_moved; world_simpl; try done.
           ++ by rewrite Hf2, Hfiles.
           ++ by rewrite Hev2, Hev, <- app_assoc.
           ++ by rewrite Hout2, Hout.
        -- unfold bind, ret, modify.
           intros [= <- <-].
           eapply at_written_in_place; world_simpl; try done.
           ++ by rewrite Hf2, Hfiles.
           ++ by rewrite Hev2, Hev.
           ++ by rewrite Hout2, Hout.
      * (* opening the destination fails *)
        intros Hrun.
        assert (r = policy opts /\
                w' = complain opts 262 (msg_write dst wexc)
                       (set_events (fun l => l ++ [EvWriteFailed dst]) w2)) as [-> ->].
        { unfold policy in *. destruct (cont opts); by inversion Hrun. }
        eapply at_open_failed; world_simpl; try done.
        -- by rewrite Hf2, Hfiles.
        -- by rewrite Hev2, Hev.
        -- by rewrite Hout2, Hout, <- app_assoc.
      * (* the write fails *)
        intros Hrun.
        assert (r = policy opts /\
                w' = complain opts 262 (msg_write dst wexc)
                       (set_events (fun l => l ++ [EvWriteFailed dst])
                          (set_files (insert dst (take n data)) w2))) as [-> ->].
        { unfold policy in *. destruct (cont opts); by inversion Hrun. }
        eapply at_write_failed; world_simpl; try done.
        -- by rewrite Hf2, Hfiles.
        -- by rewrite Hev2, Hev.
        -- by rewrite Hout2, Hout, <- app_assoc.
    + (* the codec raises *)
      destruct e as [exc| |exc|n]; cbn [on_ValueError].
      * rewrite get_cont_fct_run. intros [= <- <-].
        eapply at_cipher_failed; world_simpl; try done.
        -- by rewrite Hf2, Hfiles.
        -- by rewrite Hev2, Hev.
        -- by rewrite Hout2, Hout, <- app_assoc.
      * intros [= <- <-]. eapply at_cipher_crashed; world_simpl; try done.
        -- by rewrite Hf2, Hfiles.
        -- by rewrite Hev2, Hev.
        -- by rewrite Hout2, Hout.
      * intros [= <- <-]. eapply at_cipher_crashed; world_simpl; try done.
        -- by rewrite Hf2, Hfiles.
        -- by rewrite Hev2, Hev.
        -- by rewrite Hout2, Hout.
      * intros [= <- <-]. eapply at_cipher_crashed; world_simpl; try done.
        -- by rewrite Hf2, Hfiles.
        -- by rewrite Hev2, Hev.
        -- by rewrite Hout2, Hout.
Qed.

Lemma same_fs_refl w : same_fs w w.
Proof. by repeat split. Qed.

(** [lock_file] goes one of the ways of [transition]. *)
Lemma lock_file_transition `{Library} opts pw path w r w' :
  lock_file opts pw path w = (r, w') ->
  transition opts path (path +:+ suffix opts)
    (AESCipher.encrypt (AESCipher.__init__ pw) (Random_read (w_reads w)))
    "lock/encrypt" 284 (info_line opts (msg_lock opts path) 272) w r w'.
Proof.
  unfold lock_file. fold (msg_lock opts path).
  unfold bind at 1. rewrite infov2_run.
  set (w1 := set_stdout _ w).
  assert (Hfs : same_fs w w1) by (by repeat split).
  unfold bind at 1. rewrite check_existence_run.
  pose (C := fun (content : bytes) (w : world) =>
               (AESCipher.encrypt (AESCipher.__init__ pw) (Random_read (w_reads w)) content,
                set_reads S w)).
  assert (HC : forall content w2, w_reads w2 = w_reads w ->
            (C content w2).1 =
              AESCipher.encrypt (AESCipher.__init__ pw) (Random_read (w_reads w)) content /\
            same_fs w2 (C content w2).2 /\ w_stdout (C content w2).2 = w_stdout w2).
  { intros content w2 Hr. unfold C. simpl. rewrite Hr. by repeat split. }
  destruct (decide (blocked opts w1 _)) as [Hb|Hfree].
  - apply (blocked_frame opts w w1 _ Hfs) in Hb.
    unfold policy at 1. destruct (cont opts) eqn:Hcont.
    + intros Hrun. apply tr_warned; [done..|].
      apply (attempt_sound opts path _ C _ locked "lock/encrypt" 284 _ w
               (complain opts 236 (msg_exists (path +:+ suffix opts)) w1));
        [done|done| |exact HC|exact Hrun].
      unfold complain, w1, level. world_simpl. by rewrite Hcont, <- app_assoc.
    + intros [= <- <-]. apply tr_blocked; try done.
      unfold complain, w1, level. world_simpl. by rewrite Hcont, <- app_assoc.
  - intros Hrun. apply tr_free.
    + by rewrite <- (blocked_frame opts w w1 _ Hfs).
    + by apply (attempt_sound opts path _ C _ locked "lock/encrypt" 284 _ w w1).
Qed.

(** [unlock_file] skips a path that does not end with the suffix. *)
Lemma unlock_file_skip `{Library} opts pw path w :
  endswith path (suffix opts) = false ->
  (unlock_file opts pw path w).1 = Ok tt /\
  same_fs w (unlock_file opts pw path w).2.
Proof.
  intros Hend. unfold unlock_file. rewrite Hend.
  unfold bind. rewrite infov2_run. by repeat split.
Qed.

(** [unlock_file] goes, for a path that ends with the suffix, one of the
    ways of [transition]. *)
Lemma unlock_file_transition `{Library} opts pw path w r w' :
  endswith path (suffix opts) = true ->
  unlock_file opts pw path w = (r, w') ->
  transition opts path (unlock_dest opts path)
    (AESCipher.decrypt (AESCipher.__init__ pw))
    "unlock/decrypt" 308 (info_line opts (msg_unlock opts path) 296) w r w'.
Proof.
  intros Hend. unfold unlock_file. rewrite Hend.
  fold (unlock_dest opts path). fold (msg_unlock opts path).
  unfold bind at 1. rewrite infov2_run.
  set (w1 := set_stdout _ w).
  assert (Hfs : same_fs w w1) by (by repeat split).
  unfold bind at 1. rewrite check_existence_run.
  pose (C := fun (content : bytes) =>
               lift (AESCipher.decrypt (AESCipher.__init__ pw) content)).
  assert (HC : forall content w2, w_reads w2 = w_reads w ->
            (C content w2).1 = AESCipher.decrypt (AESCipher.__init__ pw) content /\
            same_fs w2 (C content w2).2 /\ w_stdout (C content w2).2 = w_stdout w2).
  { intros content w2 Hr. unfold C, lift. simpl. by repeat split. }
  destruct (decide (blocked opts w1 _)) as [Hb|Hfree].
  - apply (blocked_frame opts w w1 _ Hfs) in Hb.
    unfold policy at 1. destruct (cont opts) eqn:Hcont.
    + intros Hrun. apply tr_warned; [done..|].
      apply (attempt_sound opts path _ C _ unlocked "unlock/decrypt" 308 _ w
               (complain opts 236 (msg_exists (unlock_dest opts path)) w1));
        [done|done| |exact HC|exact Hrun].
      unfold complain, w1, level. world_simpl. by rewrite Hcont, <- app_assoc.
    + intros [= <- <-]. apply tr_blocked; try done.
      unfold complain, w1, level. world_simpl. by rewrite Hcont, <- app_assoc.
  - intros Hrun. apply tr_free.
    + by rewrite <- (blocked_frame opts w w1 _ Hfs).
    + by apply (attempt_sound opts path _ C _ unlocked "unlock/decrypt" 308 _ w w1).
Qed.

(** ** The source is removed after the destination is written *)

Lemma append_empty_r (s : string) : s +:+ EmptyString = s.
Proof.
  induction s as [|c s IH]; [done|].
  change (String c (s +:+ EmptyString) = String c s). by rewrite IH.
Qed.

Lemma substring_0_len (s : string) : forall n, String.substring n 0 s = EmptyString.
Proof.
  induction s as [|c s IH]; intros [|n]; cbn; auto.
Qed.

Lemma endswith_empty (s : string) : endswith s EmptyString = true.
Proof.
  unfold endswith. cbn [String.length].
  rewrite substring_0_len.
  apply andb_true_iff. split; apply bool_decide_eq_true; [lia|done].
Qed.

Lemma removal_after_write_quiet (src dst : string) (new : list event) :
  (forall q, EvRemove q ∉ new) -> removal_after_write src dst new.
Proof.
  intros Hno i q Hi. exfalso. apply (Hno q). by apply list_elem_of_lookup_2 in Hi.
Qed.

Lemma new_events_app (w w' : world) (new : list event) :
  w_events w' = w_events w ++ new -> new_events w w' = new.
Proof. intros Hev. unfold new_events. rewrite Hev. apply drop_app_length. Qed.

(** What a transition did to the file system, read off its events. *)
Lemma attempt_removal opts src dst T what line printed w r w' :
  attempt opts src dst T what line printed w r w' ->
  w_events w' = w_events w ++ new_events w w' /\
  removal_after_write src dst (new_events w w') /\
  (EvRemove src ∈ new_events w w' ->
     exists data, w_files w' !! dst = Some data /\ w_files w' !! src = None) /\
  (dst = src -> forall q, EvRemove q ∉ new_events w w') /\
  (dst = src -> is_Some (w_files w !! src) -> is_Some (w_files w' !! src)).
Proof.
  assert (Hnone : forall new : list event, new = [] \/ (exists p, new = [EvWriteFailed p]) \/
                    (exists p d, new = [EvWrite p d]) ->
                  forall q, EvRemove q ∉ new).
  { intros new [->|[[p ->]|(p & d & ->)]] q Hq; no_removal. }
  intros Hat.
  destruct Hat as [exc w' Hr Hf Hev Hout
                  |content exc w' Hr Hc HT Hf Hev Hout
                  |content e w' Hr Hc HT He Hf Hev Hout
                  |content data exc w' Hr Hc HT Hw Hf Hev Hout
                  |content data exc n w' Hr Hc HT Hw Hf Hev Hout
                  |content data w' Hr Hc HT Hw Heq Hf Hev Hout
                  |content data w' Hr Hc HT Hw Hne Hf Hev Hout].
  1-3: rewrite <- (app_nil_r (w_events w)) in Hev;
       rewrite (new_events_app w w' [] Hev); rewrite Hf;
       (split; [done|]); (split; [by apply removal_after_write_quiet, Hnone; left|]);
       (split; [no_removal|]); (split; [no_removal|done]).
  - (* opening the destination failed *)
    rewrite (new_events_app w w' _ Hev), Hf.
    split; [done|]. split; [apply removal_after_write_quiet, Hnone; eauto|].
    split; [no_removal|]. split; [no_removal|done].
  - (* the write failed *)
    rewrite (new_events_app w w' _ Hev), Hf.
    split; [done|]. split; [apply removal_after_write_quiet, Hnone; eauto|].
    split; [no_removal|]. split; [no_removal|].
    intros -> _. rewrite lookup_insert_eq. eauto.
  - (* written in place *)
    rewrite (new_events_app w w' _ Hev), Hf.
    split; [done|]. split; [apply removal_after_write_quiet, Hnone; eauto|].
    split; [no_removal|]. split; [no_removal|].
    intros _ _. subst dst. rewrite lookup_insert_eq. eauto.
  - (* written, then the source removed *)
    rewrite (new_events_app w w' _ Hev), Hf.
    split; [done|]. split; [|split; [|split]].
    + intros [|[|i]] q Hi; simplify_eq/=.
      split; [done|]. split; [done|]. by exists 0, data.
    + intros _. exists data. split.
      * rewrite lookup_delete_ne by done. apply lookup_insert_eq.
      * apply lookup_delete_eq.
    + done.
    + done.
Qed.

Lemma transition_removal opts src dst T what line info w r w' :
  transition opts src dst T what line info w r w' ->
  w_events w' = w_events w ++ new_events w w' /\
  removal_after_write src dst (new_events w w') /\
  (EvRemove src ∈ new_events w w' ->
     exists data, w_files w' !! dst = Some data /\ w_files w' !! src = None) /\
  (dst = src -> forall q, EvRemove q ∉ new_events w w') /\
  (dst = src -> is_Some (w_files w !! src) -> is_Some (w_files w' !! src)).
Proof.
  intros [w1 Hb Hcont Hf Hev Hout|r1 w1 Hb Hcont Hat|r1 w1 Hfree Hat].
  - rewrite <- (app_nil_r (w_events w)) in Hev.
    rewrite (new_events_app w w1 [] Hev), Hf.
    split; [done|]. split; [apply removal_after_write_quiet; no_removal|].
    split; [no_removal|]. split; [no_removal|done].
  - by apply attempt_removal in Hat.
  - by apply attempt_removal in Hat.
Qed.

(** C5: whatever [lock_file] or [unlock_file] does to a path, the source is
    removed only as the event that follows the completed write of the
    destination, and only when the two paths differ; the destination then
    holds what was written.  With the empty suffix the destination is the
    source itself, nothing is removed and the file is still there. *)
Theorem C5_source_removed_only_after_write (L : Library) (opts : options)
    (password : bytes) (path : string) (w : world) :
  let after_lock := (lock_file opts password path w).2 in
  let after_unlock := (unlock_file opts password path w).2 in
  (w_events after_lock = w_events w ++ new_events w after_lock /\
   removal_after_write path (path +:+ suffix opts) (new_events w after_lock) /\
   (EvRemove path ∈ new_events w after_lock ->
      exists data, w_files after_lock !! (path +:+ suffix opts) = Some data /\
                   w_files after_lock !! path = None)) /\
  (w_events after_unlock = w_events w ++ new_events w after_unlock /\
   removal_after_write path (unlock_dest opts path) (new_events w after_unlock) /\
   (EvRemove path ∈ new_events w after_unlock ->
      exists data, w_files after_unlock !! unlock_dest opts path = Some data /\
                   w_files after_unlock !! path = None)) /\
  (suffix opts = EmptyString ->
     path +:+ suffix opts = path /\ unlock_dest opts path = path /\
     (forall q, EvRemove q ∉ new_events w after_lock) /\
     (forall q, EvRemove q ∉ new_events w after_unlock) /\
     (is_Some (w_files w !! path) ->
        is_Some (w_files after_lock !! path) /\ is_Some (w_files after_unlock !! path))).
Proof.
  intros after_lock after_unlock.
  assert (Hlock := lock_file_transition opts password path w
                     (lock_file opts password path w).1 after_lock
                     (surjective_pairing _)).
  apply transition_removal in Hlock as (Hl1 & Hl2 & Hl3 & Hl4 & Hl5).
  assert (Hunlock :
    w_events after_unlock = w_events w ++ new_events w after_unlock /\
    removal_after_write path (unlock_dest opts path) (new_events w after_unlock) /\
    (EvRemove path ∈ new_events w after_unlock ->
       exists data, w_files after_unlock !! unlock_dest opts path = Some data /\
                    w_files after_unlock !! path = None) /\
    (unlock_dest opts path = path -> forall q, EvRemove q ∉ new_events w after_unlock) /\
    (unlock_dest opts path = path -> is_Some (w_files w !! path) ->
       is_Some (w_files after_unlock !! path))).
  { destruct (endswith path (suffix opts)) eqn:Hend.
    - eapply transition_removal.
      apply (unlock_file_transition opts password path w); [done|apply surjective_pairing].
    - destruct (unlock_file_skip opts password path w Hend) as (_ & Hf & _ & _ & _ & Hev).
      fold after_unlock in Hf, Hev.
      rewrite <- (app_nil_r (w_events w)) in Hev.
      rewrite (new_events_app w after_unlock [] Hev), Hf.
      split; [exact Hev|].
      split; [apply removal_after_write_quiet; no_removal|].
      split; [no_removal|]. split; [no_removal|done]. }
  destruct Hunlock as (Hu1 & Hu2 & Hu3 & Hu4 & Hu5).
  split; [done|]. split; [done|].
  intros Hempty.
  assert (Hdl : path +:+ suffix opts = path) by (rewrite Hempty; apply append_empty_r).
  assert (Hdu : unlock_dest opts path = path).
  { unfold unlock_dest. rewrite Hempty. by rewrite bool_decide_eq_false_2 by (simpl; lia). }
  split; [done|]. split; [done|].
  split; [by apply Hl4|]. split; [by apply Hu4|].
  intros Hthere. split; [by apply Hl5|by apply Hu5].
Qed.

(** ** The continuation policy *)

Lemma last_app_snoc {A : Type} (l1 l2 : list A) (x : A) :
  last (l1 ++ l2 ++ [x]) = Some x.
Proof. by rewrite app_assoc, last_snoc. Qed.

Lemma no_removal_nil (q : string) : EvRemove q ∉ @nil event.
Proof. apply not_elem_of_nil. Qed.

Lemma no_removal_failed (p q : string) : EvRemove q ∉ [EvWriteFailed p].
Proof. intros Hq. apply list_elem_of_singleton in Hq. discriminate Hq. Qed.

(** An attempt that meets a failure ends as the policy says, reports it
    as its last line, removes nothing and leaves the source as it was. *)
Lemma attempt_failure opts src dst T what line printed w r w' :
  attempt opts src dst T what line printed w r w' ->
  (blocked opts w dst -> cont opts = true) ->
  failure opts src dst T w ->
  r = policy opts /\
  (exists ln msg, last (w_stdout w') = Some (report (level opts) ln msg)) /\
  (forall q, EvRemove q ∉ new_events w w') /\
  (dst ≠ src -> w_files w' !! src = w_files w !! src) /\
  (failure_before_write opts src dst T w -> w_files w' = w_files w) /\
  (forall p, p ≠ dst -> w_files w' !! p = w_files w !! p).
Proof.
  intros Hat Hwarned Hfail.
  destruct Hat as [exc w' Hr Hf Hev Hout
                  |content exc w' Hr Hc HT Hf Hev Hout
                  |content e w' Hr Hc HT He Hf Hev Hout
                  |content data exc w' Hr Hc HT Hw Hf Hev Hout
                  |content data exc n w' Hr Hc HT Hw Hf Hev Hout
                  |content data w' Hr Hc HT Hw Heq Hf Hev Hout
                  |content data w' Hr Hc HT Hw Hne Hf Hev Hout].
  - (* the read failed *)
    rewrite <- (app_nil_r (w_events w)) in Hev.
    rewrite (new_events_app w w' [] Hev), Hf, Hout.
    split; [done|]. split; [do 2 eexists; apply last_app_snoc|].
    split; [apply no_removal_nil|done].
  - (* the codec raised a ValueError *)
    rewrite <- (app_nil_r (w_events w)) in Hev.
    rewrite (new_events_app w w' [] Hev), Hf, Hout.
    split; [done|]. split; [do 2 eexists; apply last_app_snoc|].
    split; [apply no_removal_nil|done].
  - (* the codec raised something else: no failure of the policy *)
    exfalso.
    destruct Hfail as [[[Hb Hc']|[[exc' Hr']|(c' & exc' & _ & Hc' & HT')]]
                      |(c' & d' & _ & Hc' & HT' & _)].
    + specialize (Hwarned Hb). congruence.
    + congruence.
    + rewrite Hc in Hc'. inversion Hc'; subst c'. rewrite HT in HT'.
      inversion HT'; subst e. by apply (He exc').
    + rewrite Hc in Hc'. inversion Hc'; subst c'. congruence.
  - (* opening the destination failed *)
    rewrite (new_events_app w w' _ Hev), Hf, Hout.
    split; [done|]. split; [do 2 eexists; apply last_app_snoc|].
    split; [intros q; apply no_removal_failed|done].
  - (* the write failed *)
    rewrite (new_events_app w w' _ Hev), Hf, Hout.
    split; [done|]. split; [do 2 eexists; apply last_app_snoc|].
    split; [intros q; apply no_removal_failed|].
    split; [intros Hne; by apply lookup_insert_ne|].
    split; [|intros p Hp; by apply lookup_insert_ne].
    intros [[Hb Hc']|[[exc' Hr']|(c' & exc' & _ & Hc' & HT')]].
    + specialize (Hwarned Hb). congruence.
    + congruence.
    + rewrite Hc in Hc'. inversion Hc'; subst c'. congruence.
  - (* written in place: no failure *)
    exfalso.
    destruct Hfail as [[[Hb Hc']|[[exc' Hr']|(c' & exc' & _ & Hc' & HT')]]
                      |(c' & d' & _ & Hc' & HT' & Hw')].
    + specialize (Hwarned Hb). congruence.
    + congruence.
    + rewrite Hc in Hc'. inversion Hc'; subst c'. congruence.
    + done.
  - (* moved: no failure *)
    exfalso.
    destruct Hfail as [[[Hb Hc']|[[exc' Hr']|(c' & exc' & _ & Hc' & HT')]]
                      |(c' & d' & _ & Hc' & HT' & Hw')].
    + specialize (Hwarned Hb). congruence.
    + congruence.
    + rewrite Hc in Hc'. inversion Hc'; subst c'. congruence.
    + done.
Qed.

Lemma transition_failure opts src dst T what line info w r w' :
  transition opts src dst T what line info w r w' ->
  failure opts src dst T w ->
  r = policy opts /\
  (exists ln msg, last (w_stdout w') = Some (report (level opts) ln msg)) /\
  (forall q, EvRemove q ∉ new_events w w') /\
  (dst ≠ src -> w_files w' !! src = w_files w !! src) /\
  (failure_before_write opts src dst T w -> w_files w' = w_files w) /\
  (forall p, p ≠ dst -> w_files w' !! p = w_files w !! p).
Proof.
  intros [w1 Hb Hcont Hf Hev Hout|r1 w1 Hb Hcont Hat|r1 w1 Hfree Hat] Hfail.
  - rewrite <- (app_nil_r (w_events w)) in Hev.
    rewrite (new_events_app w w1 [] Hev), Hf, Hout.
    unfold policy, level. rewrite Hcont.
    split; [done|]. split; [do 2 eexists; apply last_app_snoc|].
    split; [apply no_removal_nil|done].
  - by apply (attempt_failure _ _ _ _ _ _ _ _ _ _ Hat).
  - by apply (attempt_failure _ _ _ _ _ _ _ _ _ _ Hat).
Qed.

Lemma process_file_run `{Library} opts pw path w :
  process_file opts pw path w =
    (if lock opts then lock_file opts pw path else unlock_file opts pw path)
      (set_stats (stat_add files 1) w).
Proof. unfold process_file, bind, modify. by destruct (lock opts). Qed.




Lemma for_each_next {A : Type} (x : A) (xs : list A) (body : A -> M unit) w w' :
  body x w = (Ok tt, w') -> for_each (x :: xs) body w = for_each xs body w'.
Proof. intros Hx. cbn [for_each]. unfold bind. by rewrite Hx. Qed.



(** ** What a transition does when nothing fails, and when the destination
    is in the way *)

Lemma attempt_moved opts src dst T what line printed w r w' content data :
  attempt opts src dst T what line printed w r w' ->
  read_error w src = None -> w_files w !! src = Some content ->
  T content = Ok data -> w_wfault w dst = WriteOk -> dst ≠ src ->
  r = Ok tt /\
  w_files w' = delete src (<[dst := data]> (w_files w)) /\
  new_events w w' = [EvWrite dst data; EvRemove src] /\
  w_stdout w' = w_stdout w ++ printed.
Proof.
  intros Hat Hread Hcontent HT Hfault Hne.
  destruct Hat as [exc w' Hr Hf Hev Hout
                  |content' exc w' Hr Hc HT' Hf Hev Hout
                  |content' e w' Hr Hc HT' He Hf Hev Hout
                  |content' data' exc w' Hr Hc HT' Hw Hf Hev Hout
                  |content' data' exc n w' Hr Hc HT' Hw Hf Hev Hout
                  |content' data' w' Hr Hc HT' Hw Heq Hf Hev Hout
                  |content' data' w' Hr Hc HT' Hw Hne' Hf Hev Hout];
    try congruence.
  assert (content' = content) as -> by congruence.
  assert (data' = data) as -> by congruence.
  by rewrite (new_events_app w w' _ Hev).
Qed.

Lemma transition_moved opts src dst T what line info w r w' content data :
  transition opts src dst T what line info w r w' ->
  (blocked opts w dst -> cont opts = true) ->
  read_error w src = None -> w_files w !! src = Some content ->
  T content = Ok data -> w_wfault w dst = WriteOk -> dst ≠ src ->
  r = Ok tt /\
  w_files w' = delete src (<[dst := data]> (w_files w)) /\
  new_events w w' = [EvWrite dst data; EvRemove src] /\
  (blocked opts w dst ->
     w_stdout w' = w_stdout w ++ info ++ [report "WARNING" 236 (msg_exists dst)]) /\
  (¬ blocked opts w dst -> w_stdout w' = w_stdout w ++ info).
Proof.
  intros [w1 Hb Hcont Hf Hev Hout|r1 w1 Hb Hcont Hat|r1 w1 Hfree Hat]
    Hwarned Hread Hcontent HT Hfault Hne.
  - specialize (Hwarned Hb). congruence.
  - destruct (attempt_moved _ _ _ _ _ _ _ _ _ _ _ _ Hat Hread Hcontent HT Hfault Hne)
      as (-> & Hf & Hev & Hout).
    by repeat split.
  - destruct (attempt_moved _ _ _ _ _ _ _ _ _ _ _ _ Hat Hread Hcontent HT Hfault Hne)
      as (-> & Hf & Hev & Hout).
    by repeat split.
Qed.

Lemma transition_blocked_fatal opts src dst T what line info w r w' :
  transition opts src dst T what line info w r w' ->
  blocked opts w dst -> cont opts = false ->
  r = Raise (SystemExit 1) /\
  w_files w' = w_files w /\
  new_events w w' = [] /\
  w_stdout w' = w_stdout w ++ info ++ [report "ERROR" 236 (msg_exists dst)].
Proof.
  intros [w1 Hb Hcont Hf Hev Hout|r1 w1 Hb Hcont Hat|r1 w1 Hfree Hat] Hblocked Hfatal.
  - rewrite <- (app_nil_r (w_events w)) in Hev.
    by rewrite (new_events_app w w1 [] Hev).
  - congruence.
  - done.
Qed.

(** C2: with [overwrite] off and an existing destination, [lock_file] and
    [unlock_file] stop without touching either file only when errors are
    fatal ([cont] off).  With [cont] on they report the existing
    destination as a warning and go on: the destination is replaced and
    the source removed, exactly as when [overwrite] is on or the
    destination is free. *)
Theorem C2_overwrite_guard (L : Library) (opts : options) (password : bytes)
    (path : string) (w : world) :
  let locked_to := path +:+ suffix opts in
  let unlocked_to := unlock_dest opts path in
  let r_lock := (lock_file opts password path w).1 in
  let w_lock := (lock_file opts password path w).2 in
  let r_unlock := (unlock_file opts password path w).1 in
  let w_unlock := (unlock_file opts password path w).2 in
  (blocked opts w locked_to -> cont opts = false ->
     r_lock = Raise (SystemExit 1) /\ w_files w_lock = w_files w /\
     new_events w w_lock = []) /\
  (endswith path (suffix opts) = true ->
   blocked opts w unlocked_to -> cont opts = false ->
     r_unlock = Raise (SystemExit 1) /\ w_files w_unlock = w_files w /\
     new_events w w_unlock = []) /\
  (forall content data,
     (blocked opts w locked_to -> cont opts = true) ->
     read_error w path = None -> w_files w !! path = Some content ->
     AESCipher.encrypt (AESCipher.__init__ password) (Random_read (w_reads w)) content
       = Ok data ->
     w_wfault w locked_to = WriteOk -> locked_to ≠ path ->
     r_lock = Ok tt /\
     w_files w_lock = delete path (<[locked_to := data]> (w_files w)) /\
     new_events w w_lock = [EvWrite locked_to data; EvRemove path]) /\
  (forall content data,
     endswith path (suffix opts) = true ->
     (blocked opts w unlocked_to -> cont opts = true) ->
     read_error w path = None -> w_files w !! path = Some content ->
     AESCipher.decrypt (AESCipher.__init__ password) content = Ok data ->
     w_wfault w unlocked_to = WriteOk -> unlocked_to ≠ path ->
     r_unlock = Ok tt /\
     w_files w_unlock = delete path (<[unlocked_to := data]> (w_files w)) /\
     new_events w w_unlock = [EvWrite unlocked_to data; EvRemove path]).
Proof.
  intros locked_to unlocked_to r_lock w_lock r_unlock w_unlock.
  pose proof (lock_file_transition opts password path w r_lock w_lock
                (surjective_pairing _)) as Hlock.
  split; [|split; [|split]].
  - intros Hb Hfatal.
    destruct (transition_blocked_fatal _ _ _ _ _ _ _ _ _ _ Hlock Hb Hfatal)
      as (? & ? & ? & _).
    done.
  - intros Hend Hb Hfatal.
    pose proof (unlock_file_transition opts password path w r_unlock w_unlock Hend
                  (surjective_pairing _)) as Hunlock.
    destruct (transition_blocked_fatal _ _ _ _ _ _ _ _ _ _ Hunlock Hb Hfatal)
      as (? & ? & ? & _).
    done.
  - intros content data Hwarned Hread Hcontent HT Hfault Hne.
    destruct (transition_moved _ _ _ _ _ _ _ _ _ _ _ _ Hlock Hwarned Hread Hcontent HT
                Hfault Hne) as (? & ? & ? & _).
    done.
  - intros content data Hend Hwarned Hread Hcontent HT Hfault Hne.
    pose proof (unlock_file_transition opts password path w r_unlock w_unlock Hend
                  (surjective_pairing _)) as Hunlock.
    destruct (transition_moved _ _ _ _ _ _ _ _ _ _ _ _ Hunlock Hwarned Hread Hcontent HT
                Hfault Hne) as (? & ? & ? & _).
    done.
Qed.

(** The failing input of C2: [a.txt] is locked into the existing
    [a.txt.locked] with [overwrite] off and [cont] on. *)
Lemma C2_overwrite_guard_failing_input :
  let opts := {| cont := true; overwrite := false; suffix := ".locked"; lock := true;
                 unlock := false; no_recurse := false; verbose := 0; FILES := ["a.txt"] |} in
  let w := quiet_world (<["a.txt" := bytes_of "new"]> (<["a.txt.locked" := bytes_of "old"]> ∅)) in
  let r := (lock_file (H := Toy.lib) opts (bytes_of "secret") "a.txt" w).1 in
  let w' := (lock_file (H := Toy.lib) opts (bytes_of "secret") "a.txt" w).2 in
  blocked opts w "a.txt.locked" /\
  r = Ok tt /\
  w_stdout w' = [report "WARNING" 236 (msg_exists "a.txt.locked")] /\
  w_files w' !! "a.txt" = None /\
  (exists data, w_files w' !! "a.txt.locked" = Some data /\ data ≠ bytes_of "old") /\
  (exists data, new_events w w' = [EvWrite "a.txt.locked" data; EvRemove "a.txt"]).
Proof.
  intros opts w r w'.
  pose proof (C2_overwrite_guard Toy.lib opts (bytes_of "secret") "a.txt" w)
    as (_ & _ & Hgoes_on & _).
  edestruct (Hgoes_on (bytes_of "new")) as (Hr & Hfiles & Hev);
    [reflexivity|reflexivity|reflexivity|vm_compute; reflexivity|reflexivity|discriminate|].
  fold w' in Hfiles, Hev. fold r in Hr.
  split.
  { split; [reflexivity|]. left. vm_compute. eauto. }
  split; [exact Hr|].
  split; [vm_compute; reflexivity|].
  split; [rewrite Hfiles; apply lookup_delete_eq|].
  split.
  - eexists. split.
    + rewrite Hfiles. rewrite lookup_delete_ne by discriminate. apply lookup_insert_eq.
    + discriminate.
  - eexists. exact Hev.
Defined.




(** ** Cipher failures in unlock mode *)

Section CipherFailures.
Context `{L : Library} (Laws : LibraryLaws L).

(** Decrypting, under any password, a blob that [encrypt] made never
    raises: the result is the wrongly decrypted text, stripped by its
    last byte. *)
Lemma decrypt_foreign_blob (pw1 pw2 iv p : bytes) :
  valid_iv iv ->
  exists blob s c,
    AESCipher.encrypt (AESCipher.__init__ pw1) iv p = Ok blob /\
    s = AES_CBC_decrypt (AESCipher.m_key (AESCipher.__init__ pw2)) iv
          (AES_CBC_encrypt (AESCipher.m_key (AESCipher.__init__ pw1)) iv
             (AESCipher._pad (AESCipher.__init__ pw1) p)) /\
    last s = Some c /\
    AESCipher.decrypt (AESCipher.__init__ pw2) blob =
      Ok (if bool_decide (Byte.to_nat c = 0) then []
          else take (length s - Byte.to_nat c) s).
Proof.
  intros Hiv. eexists. eexists.
  set (padded := AESCipher._pad (AESCipher.__init__ pw1) p).
  set (ct := AES_CBC_encrypt (AESCipher.m_key (AESCipher.__init__ pw1)) iv padded).
  set (s := AES_CBC_decrypt (AESCipher.m_key (AESCipher.__init__ pw2)) iv ct).
  assert (Hct : length ct = length padded).
  { apply (AES_CBC_encrypt_length L Laws); [apply m_key_valid|done|apply _pad_whole_blocks]. }
  assert (Hs : length s = length padded).
  { unfold s. rewrite (AES_CBC_decrypt_length L Laws); [done|apply m_key_valid|done|].
    unfold whole_blocks. rewrite Hct. apply _pad_whole_blocks. }
  assert (Hpos : 0 < length s).
  { rewrite Hs. unfold padded. rewrite _pad_length.
    pose proof (pad_len_range (length p)). lia. }
  destruct (last s) as [c|] eqn:Hlast.
  - exists c. split; [by apply encrypt_ok|]. split; [done|]. split; [done|].
    rewrite decrypt_encrypted by done. by apply _unpad_spec.
  - apply last_None in Hlast. rewrite Hlast in Hpos. simpl in Hpos. lia.
Qed.

End CipherFailures.

(** C1 as stated is false: a blob locked with one password and unlocked
    with another is decrypted without any error.  Here the wrongly
    decrypted text ends in a zero byte, so the destination is written
    empty, nothing is reported, and the source is removed.  By
    [decrypt_foreign_blob] no library that satisfies the laws makes
    [decrypt] raise on a blob that [encrypt] produced, whatever the key. *)
Lemma C1_counterexample :
  let pw1 := bytes_of "alpha" in
  let pw2 := bytes_of "|lpha" in
  let iv := Toy.counter_read 0 in
  let blob := raw_blob (H := Toy.lib) (AESCipher.m_key (AESCipher.__init__ pw1)) iv
                (AESCipher._pad (AESCipher.__init__ pw1) (bytes_of "hello")) in
  let opts := {| cont := false; overwrite := false; suffix := ".locked"; lock := false;
                 unlock := true; no_recurse := false; verbose := 0;
                 FILES := ["a.txt.locked"] |} in
  let w := quiet_world (<["a.txt.locked" := blob]> ∅) in
  let after := run (H := Toy.lib) opts pw2 w in
  AESCipher.encrypt (H := Toy.lib) (AESCipher.__init__ pw1) iv (bytes_of "hello") = Ok blob /\
  AESCipher.m_key (AESCipher.__init__ pw1) ≠ AESCipher.m_key (AESCipher.__init__ pw2) /\
  AESCipher.decrypt (H := Toy.lib) (AESCipher.__init__ pw2) blob = Ok [] /\
  after.1 = Ok tt /\
  w_stdout after.2 = [] /\
  w_files after.2 !! "a.txt" = Some [] /\
  w_files after.2 !! "a.txt.locked" = None /\
  w_events after.2 = [EvWrite "a.txt" []; EvRemove "a.txt.locked"].
Proof. vm_compute. repeat split. discriminate. Qed.

(** C1, amended: in unlock mode a cipher failure that the libraries signal
    with a [ValueError] (undecodable base64, a blob shorter than an IV or
    not a whole number of blocks) is a per-file error under the
    continuation policy: it is reported, no file is changed and the source
    is kept.  A wrong key is not such a failure: decrypting, under any
    key, a blob that [encrypt] produced never raises; it returns the
    wrongly decrypted text without as many final bytes as its last byte
    says, possibly nothing, and [unlock_file] writes that to the
    destination and removes the source. *)
Theorem C1_cipher_failures (L : Library) (opts : options) (password : bytes)
    (path : string) (w : world) :
  LibraryLaws L ->
  endswith path (suffix opts) = true ->
  let r := (unlock_file opts password path w).1 in
  let w' := (unlock_file opts password path w).2 in
  let dst := unlock_dest opts path in
  (forall content exc,
     read_error w path = None -> w_files w !! path = Some content ->
     AESCipher.decrypt (AESCipher.__init__ password) content = Raise (ValueError exc) ->
     (cont opts = true -> r = Ok tt) /\
     (cont opts = false -> r = Raise (SystemExit 1)) /\
     (exists ln msg, last (w_stdout w') = Some (report (level opts) ln msg)) /\
     w_files w' = w_files w /\
     (forall q, EvRemove q ∉ new_events w w')) /\
  (forall other iv p,
     length iv = 16 ->
     exists blob s c,
       AESCipher.encrypt (AESCipher.__init__ other) iv p = Ok blob /\
       s = AES_CBC_decrypt (AESCipher.m_key (AESCipher.__init__ password)) iv
             (AES_CBC_encrypt (AESCipher.m_key (AESCipher.__init__ other)) iv
                (AESCipher._pad (AESCipher.__init__ other) p)) /\
       last s = Some c /\
       AESCipher.decrypt (AESCipher.__init__ password) blob =
         Ok (if bool_decide (Byte.to_nat c = 0) then []
             else take (length s - Byte.to_nat c) s)) /\
  (forall content s,
     (blocked opts w dst -> cont opts = true) ->
     read_error w path = None -> w_files w !! path = Some content ->
     AESCipher.decrypt (AESCipher.__init__ password) content = Ok s ->
     w_wfault w dst = WriteOk -> dst ≠ path ->
     r = Ok tt /\
     w_files w' = delete path (<[dst := s]> (w_files w)) /\
     new_events w w' = [EvWrite dst s; EvRemove path]).
Proof.
  intros Laws Hend r w' dst.
  pose proof (unlock_file_transition opts password path w r w' Hend
                (surjective_pairing _)) as Htr.
  split; [|split].
  - intros content exc Hread Hcontent Hdec.
    assert (Hbefore : failure_before_write opts path dst
                        (AESCipher.decrypt (AESCipher.__init__ password)) w).
    { right. right. by exists content, exc. }
    destruct (transition_failure _ _ _ _ _ _ _ _ _ _ Htr (or_introl Hbefore))
      as (Hr & Hlast & Hkeep & _ & Hfiles & _).
    unfold policy in Hr.
    split; [by intros Hc; rewrite Hc in Hr|].
    split; [by intros Hc; rewrite Hc in Hr|].
    split; [exact Hlast|]. split; [by apply Hfiles|exact Hkeep].
  - intros other iv p Hiv. by apply decrypt_foreign_blob.
  - intros content s Hwarned Hread Hcontent Hdec Hfault Hne.
    destruct (transition_moved _ _ _ _ _ _ _ _ _ _ _ _ Htr Hwarned Hread Hcontent Hdec
                Hfault Hne) as (? & ? & ? & _).
    done.
Qed.

Lemma C1_cipher_failures_witness :
  let opts := {| cont := true; overwrite := false; suffix := ".locked"; lock := false;
                 unlock := true; no_recurse := false; verbose := 0;
                 FILES := ["a.txt.locked"] |} in
  let w := quiet_world (<["a.txt.locked" := bytes_of "00ff"]> ∅) in
  (unlock_file (H := Toy.lib) opts (bytes_of "secret") "a.txt.locked" w).1 = Ok tt /\
  w_files (unlock_file (H := Toy.lib) opts (bytes_of "secret") "a.txt.locked" w).2
    = w_files w.
Proof.
  intros opts w.
  destruct (C1_cipher_failures Toy.lib opts (bytes_of "secret") "a.txt.locked" w
              ToyFacts.laws eq_refl) as (Hfailure & _ & _).
  destruct (Hfailure (bytes_of "00ff") "IV must be 16 bytes long" eq_refl eq_refl eq_refl)
    as (Hr & _ & _ & Hfiles & _).
  split; [by apply Hr|exact Hfiles].
Defined.

(** * Further properties of the code *)

(** ** Padding and key normalisation *)

(** X1: [_pad] adds between 1 and 32 bytes, so that the length becomes a
    multiple of 32, and [_unpad] gives back the text that was padded,
    whatever it is (empty, ending in small bytes, a multiple of 32 long). *)
Theorem X1_unpad_pad_round_trip (key s : bytes) :
  let padded := AESCipher._pad (AESCipher.__init__ key) s in
  length s < length padded <= length s + 32 /\
  length padded `mod` 32 = 0 /\
  AESCipher._unpad padded = Ok s.
Proof.
  intros padded. unfold padded.
  pose proof (pad_len_range (length s)) as Hp.
  pose proof (_pad_length key s) as Hlen.
  split; [lia|]. split.
  - apply _pad_length_mod.
  - apply _unpad_pad.
Qed.

(** X2: key normalisation is idempotent, so a password shorter than 32
    bytes and the 32 bytes it is padded to are two different passwords
    with the same [AESCipher] object, hence the same key. *)
Theorem X2_key_normalisation_idempotent (password : bytes) :
  let key := AESCipher.m_key (AESCipher.__init__ password) in
  AESCipher.__init__ key = AESCipher.__init__ password /\
  (length password < 32 -> key ≠ password).
Proof.
  intros key. pose proof (m_key_length password) as Hlen. fold key in Hlen.
  split.
  - unfold AESCipher.__init__ at 1. unfold AESCipher.__init__ at 1.
    fold (AESCipher.__init__ password). fold key.
    rewrite bool_decide_eq_true_2 by lia.
    rewrite take_ge by lia.
    unfold key at 1. reflexivity.
  - intros Hshort Heq. rewrite Heq in Hlen. lia.
Qed.

(** ** The blob *)

(** X3: the blob [encrypt] returns is the base64 text of the IV followed by
    a ciphertext that is as long as the padded plaintext: a multiple of 32
    bytes, between 1 and 32 bytes longer than the plaintext. *)
Theorem X3_blob_is_iv_then_ciphertext (L : Library) (password iv p : bytes) :
  LibraryLaws L ->
  length iv = 16 ->
  exists blob ct,
    AESCipher.encrypt (AESCipher.__init__ password) iv p = Ok blob /\
    b64decode blob = Some (iv ++ ct) /\
    length ct `mod` 32 = 0 /\
    length p < length ct <= length p + 32.
Proof.
  intros Laws Hiv.
  exists (b64encode (iv ++ AES_CBC_encrypt (AESCipher.m_key (AESCipher.__init__ password)) iv
                             (AESCipher._pad (AESCipher.__init__ password) p))).
  eexists. split; [by apply encrypt_ok|].
  split; [apply (b64decode_b64encode L Laws)|].
  rewrite (AES_CBC_encrypt_length L Laws);
    [|apply m_key_valid|done|apply _pad_whole_blocks].
  pose proof (pad_len_range (length p)) as Hp.
  pose proof (_pad_length password p) as Hlen.
  split; [apply _pad_length_mod|lia].
Qed.

Lemma X3_blob_witness :
  exists blob ct,
    AESCipher.encrypt (H := Toy.lib) (AESCipher.__init__ (bytes_of "secret"))
      (Toy.counter_read 3) (bytes_of "hello") = Ok blob /\
    b64decode (Library := Toy.lib) blob = Some (Toy.counter_read 3 ++ ct) /\
    length ct `mod` 32 = 0 /\
    length (bytes_of "hello") < length ct <= length (bytes_of "hello") + 32.
Proof.
  apply (X3_blob_is_iv_then_ciphertext Toy.lib (bytes_of "secret") (Toy.counter_read 3)
           (bytes_of "hello") ToyFacts.laws).
  reflexivity.
Defined.

(** ** Names of locked files *)

Lemma append_cons (c : ascii) (s t : string) : String c s +:+ t = String c (s +:+ t).
Proof. reflexivity. Qed.

Lemma length_append (s t : string) :
  String.length (s +:+ t) = String.length s + String.length t.
Proof.
  induction s as [|c s IH]; [done|].
  rewrite append_cons. cbn [String.length]. by rewrite IH.
Qed.

Lemma substring_all (s : string) : String.substring 0 (String.length s) s = s.
Proof. induction s as [|c s IH]; [done|]. cbn. by rewrite IH. Qed.

Lemma substring_append_r (s t : string) :
  String.substring (String.length s) (String.length t) (s +:+ t) = t.
Proof.
  induction s as [|c s IH]; [apply substring_all|].
  rewrite append_cons. cbn [String.length String.substring]. exact IH.
Qed.

Lemma substring_append_l (s t : string) :
  String.substring 0 (String.length s) (s +:+ t) = s.
Proof.
  induction s as [|c s IH].
  - cbn [String.length]. apply substring_0_len.
  - rewrite append_cons. cbn [String.length String.substring]. by rewrite IH.
Qed.

Lemma endswith_append (path sfx : string) : endswith (path +:+ sfx) sfx = true.
Proof.
  unfold endswith. rewrite length_append.
  replace (String.length path + String.length sfx - String.length sfx)
    with (String.length path) by lia.
  rewrite substring_append_r.
  apply andb_true_iff. split; apply bool_decide_eq_true; [lia|done].
Qed.

Lemma unlock_dest_append opts path : unlock_dest opts (path +:+ suffix opts) = path.
Proof.
  unfold unlock_dest. case_bool_decide as Hlen.
  - unfold str_slice_to.
    destruct (Z.ltb_spec (- Z.of_nat (String.length (suffix opts))) 0) as [_|?]; [|lia].
    rewrite length_append.
    replace (Z.to_nat (Z.of_nat (String.length path + String.length (suffix opts)) +
                       - Z.of_nat (String.length (suffix opts))))
      with (String.length path) by lia.
    apply substring_append_l.
  - destruct (suffix opts) as [|c s]; [apply append_empty_r|].
    cbn [String.length] in Hlen. lia.
Qed.

Lemma append_ne (path sfx : string) : sfx ≠ EmptyString -> path +:+ sfx ≠ path.
Proof.
  intros Hne Heq.
  assert (Hlen : String.length (path +:+ sfx) = String.length path) by by rewrite Heq.
  rewrite length_append in Hlen.
  destruct sfx as [|c s]; [done|]. cbn [String.length] in Hlen. lia.
Qed.

(** X7: the name [lock_file] gives a locked file ends with the suffix, and
    [unlock_file] computes the original name back from it; the two names
    differ unless the suffix is empty. *)
Theorem X7_unlock_name_of_locked_name (opts : options) (path : string) :
  endswith (path +:+ suffix opts) (suffix opts) = true /\
  unlock_dest opts (path +:+ suffix opts) = path /\
  (suffix opts ≠ EmptyString -> path +:+ suffix opts ≠ path).
Proof.
  split; [apply endswith_append|].
  split; [apply unlock_dest_append|apply append_ne].
Qed.

(** ** What a transition leaves alone, and how it can end *)

Lemma attempt_footprint opts src dst T what line printed w r w' :
  attempt opts src dst T what line printed w r w' ->
  forall p, p ≠ src -> p ≠ dst -> w_files w' !! p = w_files w !! p.
Proof.
  intros Hat p Hsrc Hdst.
  destruct Hat as [exc w' Hr Hf Hev Hout
                  |content exc w' Hr Hc HT Hf Hev Hout
                  |content e w' Hr Hc HT He Hf Hev Hout
                  |content data exc w' Hr Hc HT Hw Hf Hev Hout
                  |content data exc n w' Hr Hc HT Hw Hf Hev Hout
                  |content data w' Hr Hc HT Hw Heq Hf Hev Hout
                  |content data w' Hr Hc HT Hw Hne Hf Hev Hout];
    rewrite Hf; try done.
  - by rewrite lookup_insert_ne.
  - by rewrite lookup_insert_ne.
  - rewrite lookup_delete_ne by done. by rewrite lookup_insert_ne.
Qed.

Lemma transition_footprint opts src dst T what line info w r w' :
  transition opts src dst T what line info w r w' ->
  forall p, p ≠ src -> p ≠ dst -> w_files w' !! p = w_files w !! p.
Proof.
  intros [w1 Hb Hcont Hf Hev Hout|r1 w1 Hb Hcont Hat|r1 w1 Hfree Hat] p Hsrc Hdst.
  - by rewrite Hf.
  - by apply (attempt_footprint _ _ _ _ _ _ _ _ _ _ Hat).
  - by apply (attempt_footprint _ _ _ _ _ _ _ _ _ _ Hat).
Qed.

Lemma process_file_footprint `{Library} opts pw path w p :
  p ≠ path -> p ≠ dest opts path ->
  w_files (process_file opts pw path w).2 !! p = w_files w !! p.
Proof.
  intros Hsrc Hdst. rewrite process_file_run. unfold dest in Hdst.
  set (w1 := set_stats (stat_add files 1) w).
  change (w_files w) with (w_files w1).
  destruct (lock opts).
  - pose proof (lock_file_transition opts pw path w1 _ _ (surjective_pairing _)) as Htr.
    by apply (transition_footprint _ _ _ _ _ _ _ _ _ _ Htr).
  - destruct (endswith path (suffix opts)) eqn:Hend.
    + pose proof (unlock_file_transition opts pw path w1 _ _ Hend (surjective_pairing _))
        as Htr.
      by apply (transition_footprint _ _ _ _ _ _ _ _ _ _ Htr).
    + by destruct (unlock_file_skip opts pw path w1 Hend) as (_ & -> & _).
Qed.

(** X9: processing a file changes no file other than the file itself and
    its destination: every other path holds afterwards what it held
    before, whether the operation succeeds, fails or skips the file. *)
Theorem X9_only_source_and_destination_change (L : Library) (opts : options)
    (password : bytes) (path p : string) (w : world) :
  p ≠ path ->
  p ≠ dest opts path ->
  w_files (process_file opts password path w).2 !! p = w_files w !! p.
Proof. apply process_file_footprint. Qed.

Lemma X9_footprint_witness :
  let opts := {| cont := false; overwrite := true; suffix := ".locked"; lock := true;
                 unlock := false; no_recurse := false; verbose := 0; FILES := [] |} in
  let w := quiet_world (<["a.txt" := bytes_of "hello"]> (<["b.txt" := bytes_of "bee"]> ∅)) in
  w_files (process_file (H := Toy.lib) opts (bytes_of "secret") "a.txt" w).2 !! "b.txt"
    = Some (bytes_of "bee").
Proof.
  intros opts w.
  rewrite (X9_only_source_and_destination_change Toy.lib opts (bytes_of "secret")
             "a.txt" "b.txt" w); [reflexivity|discriminate|discriminate].
Defined.







(** ** Composing what each step respects *)

Section Respects.
Context (R1 R2 R3 : world -> world -> Prop).
Context (Hcomp : forall a c d, R1 a c -> R2 c d -> R3 a d).
Context (Hweak : forall a c, R1 a c -> R3 a c).

Lemma respects_bind {A B : Type} (m : M A) (k : A -> M B) :
  respects R1 m -> (forall a, respects R2 (k a)) -> respects R3 (bind m k).
Proof.
  intros Hm Hk w. unfold bind. specialize (Hm w).
  destruct (m w) as [[a|e] w1]; simpl in *.
  - by apply (Hcomp _ w1), Hk.
  - by apply Hweak.
Qed.

Lemma respects_try_except {A : Type} (body : M A) (handler : exn -> option (M A)) :
  respects R1 body ->
  (forall e h, handler e = Some h -> respects R2 h) ->
  respects R3 (try_except body handler).
Proof.
  intros Hbody Hh w. unfold try_except. specialize (Hbody w).
  destruct (body w) as [[a|e] w1]; simpl in *.
  - by apply Hweak.
  - destruct (handler e) as [h|] eqn:He; simpl.
    + by apply (Hcomp _ w1), (Hh e h He).
    + by apply Hweak.
Qed.

End Respects.

Section RespectsPreorder.
Context (R : world -> world -> Prop) `{!Reflexive R, !Transitive R}.

Lemma respects_seq {A B : Type} (m : M A) (k : A -> M B) :
  respects R m -> (forall a, respects R (k a)) -> respects R (bind m k).
Proof. apply respects_bind; [intros a c d; apply transitivity|done]. Qed.

Lemma respects_catch {A : Type} (body : M A) (handler : exn -> option (M A)) :
  respects R body ->
  (forall e h, handler e = Some h -> respects R h) ->
  respects R (try_except body handler).
Proof. apply respects_try_except; [intros a c d; apply transitivity|done]. Qed.

Lemma respects_ret {A : Type} (a : A) : respects R (ret a).
Proof. intros w. apply reflexivity. Qed.

Lemma respects_raise {A : Type} (e : exn) : respects R (raise (A := A) e).
Proof. intros w. apply reflexivity. Qed.

Lemma respects_lift {A : Type} (r : result A) : respects R (lift r).
Proof. intros w. apply reflexivity. Qed.

Lemma respects_gets {A : Type} (f : world -> A) : respects R (gets f).
Proof. intros w. apply reflexivity. Qed.

Lemma respects_for_each {A : Type} (xs : list A) (body : A -> M unit) :
  (forall x, x ∈ xs -> respects R (body x)) -> respects R (for_each xs body).
Proof.
  induction xs as [|x xs IH]; intros Hbody.
  - apply respects_ret.
  - cbn [for_each]. apply respects_seq.
    + apply Hbody. by left.
    + intros _. apply IH. intros y Hy. apply Hbody. by right.
Qed.

End RespectsPreorder.

(** ** What [lock_file] and [unlock_file] respect

    [R0] is what every step but the last respects, [R1] what the whole
    call respects once the count of locked, unlocked or skipped files has
    been raised; [touch] holds of the paths the call may write or remove. *)
Section Transfer.
Context `{L : Library}.
Context (R0 R1 : world -> world -> Prop) `{!Reflexive R0, !Transitive R0}.
Context (touch : string -> Prop).
Context (R01 : forall a c, R0 a c -> R1 a c).
Context (R0_R1 : forall a c d, R0 a c -> R1 c d -> R1 a d).
Context (R1_R0 : forall a c d, R1 a c -> R0 c d -> R1 a d).
Context (R0_stdout : forall f w, R0 w (set_stdout f w)).
Context (R0_reads : forall f w, R0 w (set_reads f w)).
Context (R0_events : forall f w, R0 w (set_events f w)).
Context (R0_insert : forall p c w, touch p -> R0 w (set_files (insert p c) w)).
Context (R0_delete : forall p w, touch p -> R0 w (set_files (delete p) w)).
Context (R0_read : forall n w, R0 w (set_stats (stat_add read n) w)).
Context (R0_written : forall n w, R0 w (set_stats (stat_add written n) w)).
Context (R1_done : forall key w,
  key ∈ [locked; unlocked; skipped] -> R1 w (set_stats (stat_add key 1) w)).

Lemma infov2_respects opts msg lineno : respects R0 (infov2 opts msg lineno).
Proof using R0_stdout. intros w. rewrite infov2_run. apply R0_stdout. Qed.

Lemma get_cont_fct_respects opts msg lineno : respects R0 (get_cont_fct opts msg lineno).
Proof using R0_stdout. intros w. rewrite get_cont_fct_run. apply R0_stdout. Qed.

Lemma check_existence_respects opts dst : respects R0 (check_existence opts dst).
Proof using R0_stdout Reflexive0.
  intros w. rewrite check_existence_run. destruct (decide _); [apply R0_stdout|reflexivity].
Qed.

Lemma read_file_respects opts src : respects R0 (read_file opts src).
Proof using R0_stdout R0_read Reflexive0.
  intros w. rewrite read_file_run.
  destruct (read_error w src); [apply R0_stdout|].
  destruct (w_files w !! src); [apply R0_read|reflexivity].
Qed.

Lemma write_file_respects opts dst data :
  touch dst -> respects R0 (write_file opts dst data).
Proof using R0_stdout R0_events R0_insert R0_written Reflexive0 Transitive0.
  intros Hdst w. rewrite write_file_run. unfold complain.
  destruct (w_wfault w dst); cbn [snd].
  - etransitivity; [etransitivity; [by apply R0_insert|apply R0_events]|apply R0_written].
  - etransitivity; [apply R0_events|apply R0_stdout].
  - etransitivity; [etransitivity; [by apply R0_insert|apply R0_events]|apply R0_stdout].
Qed.

Lemma os_remove_respects src : touch src -> respects R0 (os_remove src).
Proof using R0_events R0_delete Reflexive0 Transitive0.
  intros Hsrc w. unfold os_remove. destruct (w_files w !! src); cbn [snd].
  - etransitivity; [by apply R0_delete|apply R0_events].
  - reflexivity.
Qed.

Lemma random_read_respects : respects R0 random_read.
Proof using R0_reads. intros w. apply R0_reads. Qed.

(** The part [lock_file] and [unlock_file] share: read, transform with
    [C], write, remove the source, count. *)
Lemma transfer_respects opts src dst (C : bytes -> M bytes) key what line :
  touch src -> touch dst ->
  key ∈ [locked; unlocked; skipped] ->
  (forall content, respects R0 (C content)) ->
  respects R1
    (content <- read_file opts src ;;
     match content with
     | Some content =>
         try_except
           (data <- C content ;;
            ok <- write_file opts dst data ;;
            if ok then
              (if bool_decide (dst ≠ src) then os_remove src else ret tt) ;;
              modify (set_stats (stat_add key 1))
            else ret tt)
           (on_ValueError opts what src line)
     | None => ret tt
     end).
Proof using All.
  intros Hsrc Hdst Hkey HC.
  apply (respects_bind R0 R1 R1 R0_R1 R01); [apply read_file_respects|].
  intros [content|]; [|intros w; apply R01; reflexivity].
  apply (respects_try_except R1 R0 R1 R1_R0 (fun a c H => H)).
  - apply (respects_bind R0 R1 R1 R0_R1 R01); [apply HC|]. intros data.
    apply (respects_bind R0 R1 R1 R0_R1 R01); [by apply write_file_respects|].
    intros [|]; [|intros w; apply R01; reflexivity].
    apply (respects_bind R0 R1 R1 R0_R1 R01).
    + case_bool_decide; [by apply os_remove_respects|apply (respects_ret R0)].
    + intros _ w. by apply R1_done.
  - intros e h He. destruct e; try discriminate He.
    injection He as <-. apply get_cont_fct_respects.
Qed.

Lemma lock_file_respects opts pw path :
  touch path -> touch (path +:+ suffix opts) ->
  respects R1 (lock_file opts pw path).
Proof using All.
  intros Hsrc Hdst. unfold lock_file.
  apply (respects_bind R0 R1 R1 R0_R1 R01); [apply infov2_respects|]. intros _.
  apply (respects_bind R0 R1 R1 R0_R1 R01); [apply check_existence_respects|]. intros _.
  apply (transfer_respects opts path (path +:+ suffix opts)
           (fun content =>
              iv <- random_read ;;
              lift (AESCipher.encrypt (AESCipher.__init__ pw) iv content))
           locked "lock/encrypt" 284); [done|done|set_solver|].
  intros content. apply (respects_seq R0); [apply random_read_respects|].
  intros iv. apply (respects_lift R0).
Qed.

Lemma unlock_file_respects opts pw path :
  touch path -> touch (unlock_dest opts path) ->
  respects R1 (unlock_file opts pw path).
Proof using All.
  intros Hsrc Hdst. unfold unlock_file. fold (unlock_dest opts path).
  destruct (endswith path (suffix opts)).
  - apply (respects_bind R0 R1 R1 R0_R1 R01); [apply infov2_respects|]. intros _.
    apply (respects_bind R0 R1 R1 R0_R1 R01); [apply check_existence_respects|]. intros _.
    apply (transfer_respects opts path (unlock_dest opts path)
             (fun content => lift (AESCipher.decrypt (AESCipher.__init__ pw) content))
             unlocked "unlock/decrypt" 308); [done|done|set_solver|].
    intros content. apply (respects_lift R0).
  - apply (respects_bind R0 R1 R1 R0_R1 R01); [apply infov2_respects|].
    intros _ w. apply R1_done. set_solver.
Qed.

Lemma file_op_respects opts pw path :
  touch path -> touch (dest opts path) ->
  respects R1 (if lock opts then lock_file opts pw path else unlock_file opts pw path).
Proof using All.
  unfold dest. destruct (lock opts); intros Hsrc Hdst.
  - by apply lock_file_respects.
  - by apply unlock_file_respects.
Qed.

End Transfer.

(** ** The environment *)

Lemma same_env_refl : Reflexive same_env.
Proof. by intros w. Qed.

Lemma same_env_trans : Transitive same_env.
Proof.
  intros a c d (H1 & H2 & H3 & H4 & H5) (H1' & H2' & H3' & H4' & H5').
  repeat split; congruence.
Qed.

Lemma lock_file_same_env `{Library} opts pw path :
  respects same_env (lock_file opts pw path).
Proof.
  apply (lock_file_respects same_env same_env (Reflexive0 := same_env_refl)
           (Transitive0 := same_env_trans) (fun _ => True));
    try done; intros; by eapply same_env_trans.
Qed.

(** ** The files left alone *)

Lemma untouched_refl S : Reflexive (untouched S).
Proof. by intros w p Hp. Qed.

Lemma untouched_trans S : Transitive (untouched S).
Proof. intros a c d Hac Hcd p Hp. by rewrite (Hcd p Hp), (Hac p Hp). Qed.

Lemma process_file_untouched `{Library} (S : string -> Prop) opts pw path :
  S path -> S (dest opts path) ->
  respects (untouched S) (process_file opts pw path).
Proof.
  intros Hsrc Hdst. unfold process_file.
  apply (respects_seq (untouched S) (Transitive0 := untouched_trans S));
    [by intros w p Hp|].
  intros _.
  apply (file_op_respects (untouched S) (untouched S)
           (Reflexive0 := untouched_refl S) (Transitive0 := untouched_trans S) S);
    try done; try (intros; by eapply untouched_trans).
  - intros p c w Hp q Hq. cbn. apply lookup_insert_ne. by intros ->.
  - intros p w Hp q Hq. cbn. apply lookup_delete_ne. by intros ->.
Qed.

(** ** The counters *)

Lemma counted_by_0_refl : Reflexive (counted_by 0).
Proof. intros w. unfold counted_by. lia. Qed.

Lemma counted_by_0_trans : Transitive (counted_by 0).
Proof. intros a c d. unfold counted_by. lia. Qed.

Lemma process_file_counted `{Library} opts pw path :
  respects (counted_by 0) (process_file opts pw path).
Proof.
  unfold process_file.
  apply (respects_bind
           (fun w w' => stats w' = stat_add files 1 (stats w)) (counted_by 1) (counted_by 0)).
  - intros a c d Hac. unfold counted_by, stat_done. rewrite Hac. cbn. lia.
  - intros a c Hac. unfold counted_by, stat_done. rewrite Hac. cbn. lia.
  - by intros w.
  - intros _.
    apply (file_op_respects (counted_by 0) (counted_by 1)
             (Reflexive0 := counted_by_0_refl) (Transitive0 := counted_by_0_trans)
             (fun _ => True));
      try done; try (unfold counted_by, stat_done; intros; cbn; lia).
    intros key w Hkey. unfold counted_by, stat_done.
    destruct key; cbn; try lia; set_solver.
Qed.

Lemma process_dir_counted `{Library} opts pw path :
  respects (counted_by 0) (process_dir opts pw path).
Proof.
  unfold process_dir.
  apply (respects_seq (counted_by 0) (Transitive0 := counted_by_0_trans)).
  { intros w. unfold counted_by, stat_done. cbn. lia. }
  intros _. destruct (negb (no_recurse opts)).
  - apply (respects_seq (counted_by 0) (Transitive0 := counted_by_0_trans));
      [apply (respects_gets _ (Reflexive0 := counted_by_0_refl))|].
    intros walk.
    apply (respects_for_each _ (Reflexive0 := counted_by_0_refl)
             (Transitive0 := counted_by_0_trans)).
    intros [root subfiles] _.
    apply (respects_for_each _ (Reflexive0 := counted_by_0_refl)
             (Transitive0 := counted_by_0_trans)).
    intros subfile _. destruct (String.prefix "." subfile).
    + apply (respects_ret _ (Reflexive0 := counted_by_0_refl)).
    + apply process_file_counted.
  - apply (respects_seq (counted_by 0) (Transitive0 := counted_by_0_trans));
      [apply (respects_gets _ (Reflexive0 := counted_by_0_refl))|].
    intros entries.
    apply (respects_for_each _ (Reflexive0 := counted_by_0_refl)
             (Transitive0 := counted_by_0_trans)).
    intros entry _. destruct (String.prefix "." entry).
    + apply (respects_ret _ (Reflexive0 := counted_by_0_refl)).
    + apply (respects_seq (counted_by 0) (Transitive0 := counted_by_0_trans));
        [apply (respects_gets _ (Reflexive0 := counted_by_0_refl))|].
      intros [|]; [apply process_file_counted|].
      apply (respects_ret _ (Reflexive0 := counted_by_0_refl)).
Qed.

Lemma process_counted `{Library} opts pw entry :
  respects (counted_by 0) (process opts pw entry).
Proof.
  unfold process.
  apply (respects_seq (counted_by 0) (Transitive0 := counted_by_0_trans));
    [apply (respects_gets _ (Reflexive0 := counted_by_0_refl))|].
  intros [|]; [apply process_file_counted|].
  apply (respects_seq (counted_by 0) (Transitive0 := counted_by_0_trans));
    [apply (respects_gets _ (Reflexive0 := counted_by_0_refl))|].
  intros [|]; [apply process_dir_counted|].
  apply (respects_ret _ (Reflexive0 := counted_by_0_refl)).
Qed.

Lemma run_stats `{Library} opts pw w :
  stats (run opts pw w).2 =
  stats (for_each (FILES opts) (process opts pw) (set_stats (fun _ => stats0) w)).2.
Proof.
  unfold run. unfold bind at 1. cbn [modify].
  change (fun entry => process opts pw entry) with (process opts pw).
  unfold bind at 1.
  destruct (for_each (FILES opts) (process opts pw) (set_stats (fun _ => stats0) w))
    as [[[]|e] w1]; [|done].
  destruct (bool_decide (0 < verbose opts)); [|done].
  by destruct (lock opts), (unlock opts).
Qed.

(** X11: at the end of every run, whether it returns or stops on an
    error, the files counted as locked, unlocked and skipped are together at
    most the files counted in [stats['files']]. *)
Theorem X11_done_at_most_seen (L : Library) (opts : options) (password : bytes)
    (w : world) :
  let st := stats (run opts password w).2 in
  st_locked st + st_unlocked st + st_skipped st <= st_files st.
Proof.
  cbn zeta. rewrite run_stats.
  pose proof (respects_for_each (counted_by 0) (Reflexive0 := counted_by_0_refl)
                (Transitive0 := counted_by_0_trans) (FILES opts) (process opts password)
                (fun entry _ => process_counted opts password entry)
                (set_stats (fun _ => stats0) w)) as Hrun.
  unfold counted_by, stat_done in Hrun. cbn in Hrun. lia.
Qed.

(** ** The files a directory run leaves alone *)

Lemma insert_by_lower_elem x y l : x ∈ insert_by_lower y l <-> x = y \/ x ∈ l.
Proof.
  induction l as [|z l IH]; cbn [insert_by_lower].
  - rewrite list_elem_of_singleton, elem_of_nil. tauto.
  - destruct (String.ltb _ _).
    + rewrite !elem_of_cons, IH. tauto.
    + rewrite !elem_of_cons. tauto.
Qed.

Lemma sorted_lower_elem x l : x ∈ sorted_lower l <-> x ∈ l.
Proof.
  unfold sorted_lower. induction l as [|y l IH]; cbn [foldr].
  - done.
  - by rewrite insert_by_lower_elem, elem_of_cons, IH.
Qed.

Lemma visible_elem name names :
  name ∈ visible names <-> name ∈ names /\ String.prefix "." name = false.
Proof.
  unfold visible. rewrite !list_elem_of_In, filter_In, negb_true_iff. done.
Qed.

(** X12: [process_dir] changes no file but the ones it hands to
    [process_file] and their destinations: the entries whose names do not
    start with a dot, in the directories of the walk or, without recursion,
    in the listing of the directory itself. *)
Theorem X12_process_dir_footprint (L : Library) (opts : options) (password : bytes)
    (path p : string) (w : world) :
  p ∉ dir_targets opts w path ->
  (forall t, t ∈ dir_targets opts w path -> p ≠ dest opts t) ->
  w_files (process_dir opts password path w).2 !! p = w_files w !! p.
Proof.
  intros Hp Hdest.
  set (S := fun q => q ∈ dir_targets opts w path \/
                     exists t, t ∈ dir_targets opts w path /\ q = dest opts t).
  assert (HS : ¬ S p) by (intros [?|(t & ? & ?)]; [done|by eapply Hdest]).
  assert (Hfile : forall t, t ∈ dir_targets opts w path ->
            respects (untouched S) (process_file opts password t)).
  { intros t Ht. apply process_file_untouched; [by left|right; by exists t]. }
  revert HS. generalize p. change (untouched S w (process_dir opts password path w).2).
  unfold process_dir. unfold bind at 1. cbn [modify].
  unfold dir_targets in Hfile.
  destruct (negb (no_recurse opts)).
  - unfold bind at 1. cbn [gets w_walk set_stats].
    apply (untouched_trans S _ (set_stats (stat_add dirs 1) w)); [by intros q Hq|].
    apply (respects_for_each _ (Reflexive0 := untouched_refl S)
             (Transitive0 := untouched_trans S)).
    intros [root subfiles] Hroot.
    apply (respects_for_each _ (Reflexive0 := untouched_refl S)
             (Transitive0 := untouched_trans S)).
    intros subfile Hsub. destruct (String.prefix "." subfile) eqn:Hdot.
    + apply (respects_ret _ (Reflexive0 := untouched_refl S)).
    + apply Hfile. apply list_elem_of_In, in_flat_map.
      exists (root, subfiles). split; [by apply list_elem_of_In|].
      apply in_map, list_elem_of_In, visible_elem.
      by rewrite <- sorted_lower_elem.
  - unfold bind at 1. cbn [gets w_listdir set_stats].
    apply (untouched_trans S _ (set_stats (stat_add dirs 1) w)); [by intros q Hq|].
    apply (respects_for_each _ (Reflexive0 := untouched_refl S)
             (Transitive0 := untouched_trans S)).
    intros entry Hentry. destruct (String.prefix "." entry) eqn:Hdot.
    + apply (respects_ret _ (Reflexive0 := untouched_refl S)).
    + apply (respects_seq _ (Transitive0 := untouched_trans S));
        [apply (respects_gets _ (Reflexive0 := untouched_refl S))|].
      intros [|]; [|apply (respects_ret _ (Reflexive0 := untouched_refl S))].
      apply Hfile. apply list_elem_of_In, in_map, list_elem_of_In, visible_elem.
      by rewrite <- sorted_lower_elem.
Qed.

Lemma X12_process_dir_witness :
  let opts := {| cont := false; overwrite := false; suffix := ".locked"; lock := true;
                 unlock := false; no_recurse := true; verbose := 0; FILES := ["d"] |} in
  let w := with_listdir (fun _ => ["a.txt"; ".keep"])
             (quiet_world (<["d/a.txt" := bytes_of "hello"]>
                             (<["d/.keep" := bytes_of "dot"]> ∅))) in
  w_files (process_dir (H := Toy.lib) opts (bytes_of "secret") "d" w).2 !! "d/.keep"
    = Some (bytes_of "dot").
Proof.
  intros opts w.
  rewrite (X12_process_dir_footprint Toy.lib opts (bytes_of "secret") "d" "d/.keep" w).
  - reflexivity.
  - intros Hin. apply elem_of_cons in Hin as [Heq|Hin]; [discriminate Heq|].
    by apply elem_of_nil in Hin.
  - intros t Hin. apply elem_of_cons in Hin as [->|Hin]; [discriminate|].
    by apply elem_of_nil in Hin.
Defined.

(** ** The statistics of one file *)




(** ** Locking, then unlocking *)



(** ** Locking and unlocking in place *)

Lemma attempt_in_place opts src T what line printed w r w' content data :
  attempt opts src src T what line printed w r w' ->
  read_error w src = None -> w_files w !! src = Some content ->
  T content = Ok data -> w_wfault w src = WriteOk ->
  r = Ok tt /\
  w_files w' = <[src := data]> (w_files w) /\
  new_events w w' = [EvWrite src data].
Proof.
  intros Hat Hread Hcontent HT Hfault.
  destruct Hat as [exc w' Hr Hf Hev Hout
                  |content' exc w' Hr Hc HT' Hf Hev Hout
                  |content' e w' Hr Hc HT' He Hf Hev Hout
                  |content' data' exc w' Hr Hc HT' Hw Hf Hev Hout
                  |content' data' exc n w' Hr Hc HT' Hw Hf Hev Hout
                  |content' data' w' Hr Hc HT' Hw Heq Hf Hev Hout
                  |content' data' w' Hr Hc HT' Hw Hne' Hf Hev Hout];
    try congruence.
  assert (content' = content) as -> by congruence.
  assert (data' = data) as -> by congruence.
  by rewrite (new_events_app w w' _ Hev).
Qed.

Lemma transition_in_place opts src T what line info w r w' content data :
  transition opts src src T what line info w r w' ->
  overwrite opts = true ->
  read_error w src = None -> w_files w !! src = Some content ->
  T content = Ok data -> w_wfault w src = WriteOk ->
  r = Ok tt /\
  w_files w' = <[src := data]> (w_files w) /\
  new_events w w' = [EvWrite src data].
Proof.
  intros [w1 Hb Hcont Hf Hev Hout|r1 w1 Hb Hcont Hat|r1 w1 Hfree Hat]
    Hover Hread Hcontent HT Hfault.
  - destruct Hb as [Hb _]. congruence.
  - destruct Hb as [Hb _]. congruence.
  - by apply (attempt_in_place _ _ _ _ _ _ _ _ _ content data Hat).
Qed.

(** X17: in place, that is with an empty suffix and [overwrite] on,
    [lock_file] replaces the content of the file by the blob and removes
    nothing, and [unlock_file] on the same path, with the same password,
    puts the content back: the files are then exactly those before the
    lock. *)
Theorem X17_in_place_round_trip (L : Library) (opts : options) (password : bytes)
    (path : string) (w : world) (content : bytes) :
  LibraryLaws L ->
  suffix opts = EmptyString ->
  overwrite opts = true ->
  w_files w !! path = Some content ->
  w_rfault w path = None ->
  w_wfault w path = WriteOk ->
  let locked := lock_file opts password path w in
  let unlocked := unlock_file opts password path locked.2 in
  locked.1 = Ok tt /\
  (exists blob,
     AESCipher.encrypt (AESCipher.__init__ password) (Random_read (w_reads w)) content
       = Ok blob /\
     w_files locked.2 = <[path := blob]> (w_files w) /\
     new_events w locked.2 = [EvWrite path blob]) /\
  unlocked.1 = Ok tt /\
  w_files unlocked.2 = w_files w.
Proof.
  intros Laws Hsfx Hover Hc Hrp Hwp locked unlocked.
  assert (Hiv : valid_iv (Random_read (w_reads w))) by apply (Random_read_length L Laws).
  pose proof (encrypt_ok password _ content Hiv) as Henc.
  match type of Henc with _ = Ok ?b => set (blob := b) in Henc end.
  pose proof (lock_file_transition opts password path w locked.1 locked.2
                (surjective_pairing _)) as Htr1.
  rewrite Hsfx, append_empty_r in Htr1.
  destruct (transition_in_place _ _ _ _ _ _ _ _ _ content blob Htr1) as (Hr1 & Hf1 & Hev1);
    [done|unfold read_error; by rewrite Hrp, Hc|done|exact Henc|done|].
  destruct (lock_file_same_env opts password path w) as (Hd1 & _ & _ & Hrf1 & Hwf1).
  fold locked in Hd1, Hrf1, Hwf1.
  assert (Hend : endswith path (suffix opts) = true) by (rewrite Hsfx; apply endswith_empty).
  pose proof (unlock_file_transition opts password path locked.2 unlocked.1 unlocked.2
                Hend (surjective_pairing _)) as Htr2.
  assert (Hdest : unlock_dest opts path = path) by (unfold unlock_dest; by rewrite Hsfx).
  rewrite Hdest in Htr2.
  destruct (transition_in_place _ _ _ _ _ _ _ _ _ blob content Htr2) as (Hr2 & Hf2 & _).
  - done.
  - unfold read_error. by rewrite Hrf1, Hrp, Hf1, lookup_insert_eq.
  - by rewrite Hf1, lookup_insert_eq.
  - unfold blob. rewrite decrypt_encrypted by done.
    rewrite (AES_CBC_decrypt_encrypt L Laws);
      [apply _unpad_pad|apply m_key_valid|done|apply _pad_whole_blocks].
  - by rewrite Hwf1.
  - split; [done|]. split; [by exists blob|]. split; [done|].
    rewrite Hf2, Hf1, insert_insert_eq. by apply insert_id.
Qed.

Lemma X17_in_place_witness :
  let opts := {| cont := false; overwrite := true; suffix := ""; lock := true;
                 unlock := false; no_recurse := false; verbose := 0; FILES := [] |} in
  let w := quiet_world (<["a.txt" := bytes_of "hello"]> ∅) in
  let locked := lock_file (H := Toy.lib) opts (bytes_of "secret") "a.txt" w in
  let unlocked := unlock_file (H := Toy.lib) opts (bytes_of "secret") "a.txt" locked.2 in
  locked.1 = Ok tt /\ unlocked.1 = Ok tt /\ w_files unlocked.2 = w_files w.
Proof.
  intros opts w.
  destruct (X17_in_place_round_trip Toy.lib opts (bytes_of "secret") "a.txt" w
              (bytes_of "hello") ToyFacts.laws) as (H1 & _ & H2 & H3);
    try reflexivity.
  by repeat split.
Defined.

(** ** Arguments that name nothing, and names that are skipped *)

Lemma process_missing `{Library} opts pw entry w :
  w_files w !! entry = None -> entry ∉ w_dirs w ->
  process opts pw entry w = (Ok tt, w).
Proof.
  intros Hfile Hdir. unfold process, bind, os_path_isfile, os_path_isdir, gets.
  rewrite bool_decide_eq_false_2 by (rewrite Hfile; by intros [? ?]).
  by rewrite bool_decide_eq_false_2.
Qed.

Lemma for_each_idle {A : Type} (xs : list A) (body : A -> M unit) w :
  (forall x, x ∈ xs -> body x w = (Ok tt, w)) -> for_each xs body w = (Ok tt, w).
Proof.
  induction xs as [|x xs IH]; intros Hbody; [done|].
  rewrite (for_each_next x xs body w w) by (apply Hbody; by left).
  apply IH. intros y Hy. apply Hbody. by right.
Qed.

(** X13: arguments that name neither a file nor a directory are passed
    over without a word: a run whose arguments all are such returns
    normally, with exit status 0, touches no file, counts nothing and, at
    verbosity 0, prints nothing. *)
Theorem X13_missing_arguments_are_ignored (L : Library) (opts : options)
    (password : bytes) (w : world) :
  (forall entry, entry ∈ FILES opts -> w_files w !! entry = None /\ entry ∉ w_dirs w) ->
  let after := run opts password w in
  after.1 = Ok tt /\ exit_status after.1 = 0 /\
  w_files after.2 = w_files w /\ w_events after.2 = w_events w /\
  stats after.2 = stats0 /\
  (verbose opts = 0 -> w_stdout after.2 = w_stdout w).
Proof.
  intros Hmissing after.
  assert (Hloop : for_each (FILES opts) (process opts password)
                    (set_stats (fun _ => stats0) w)
                  = (Ok tt, set_stats (fun _ => stats0) w)).
  { apply for_each_idle. intros entry Hentry.
    destruct (Hmissing entry Hentry) as [Hfile Hdir]. by apply process_missing. }
  assert (Hrun : exists w',
            run opts password w = (Ok tt, w') /\ w_files w' = w_files w /\
            w_events w' = w_events w /\ stats w' = stats0 /\
            (verbose opts = 0 -> w_stdout w' = w_stdout w)).
  { unfold run. unfold bind at 1. cbn [modify].
    change (fun entry => process opts password entry) with (process opts password).
    unfold bind at 1. rewrite Hloop.
    case_bool_decide as Hv.
    - destruct (lock opts), (unlock opts); eexists; (split; [reflexivity|]);
        repeat split; intros; lia.
    - eexists. split; [reflexivity|]. by repeat split. }
  destruct Hrun as (w' & Hrun & Hrest). subst after. by rewrite Hrun.
Qed.

Lemma X13_missing_arguments_witness :
  let opts := {| cont := false; overwrite := false; suffix := ".locked"; lock := true;
                 unlock := false; no_recurse := false; verbose := 0;
                 FILES := ["nothing.txt"; "nowhere"] |} in
  (run (H := Toy.lib) opts (bytes_of "secret") (quiet_world ∅)).1 = Ok tt.
Proof.
  intros opts.
  apply (X13_missing_arguments_are_ignored Toy.lib opts (bytes_of "secret") (quiet_world ∅)).
  intros entry _. split; [reflexivity|apply not_elem_of_empty].
Defined.

(** X8: in unlock mode a file whose name does not end with the suffix is
    skipped: it is not read, nothing is written or removed, no error is
    raised whatever the state of the file, and the run counts it as one
    file seen and one file skipped. *)
Theorem X8_unlock_skips_other_names (L : Library) (opts : options) (password : bytes)
    (path : string) (w : world) :
  lock opts = false ->
  endswith path (suffix opts) = false ->
  let after := process_file opts password path w in
  after.1 = Ok tt /\
  w_files after.2 = w_files w /\ w_events after.2 = w_events w /\
  stats after.2 = stat_add skipped 1 (stat_add files 1 (stats w)) /\
  w_stdout after.2 = w_stdout w ++ info_line opts (msg_skip path) 310.
Proof.
  intros Hlock Hend after. subst after.
  rewrite process_file_run, Hlock. unfold unlock_file. rewrite Hend.
  unfold bind. rewrite infov2_run. by repeat split.
Qed.

Lemma X8_unlock_skips_witness :
  let opts := {| cont := false; overwrite := false; suffix := ".locked"; lock := false;
                 unlock := true; no_recurse := false; verbose := 2; FILES := [] |} in
  let after := process_file (H := Toy.lib) opts (bytes_of "secret") "a.txt"
                 (quiet_world (<["a.txt" := bytes_of "hello"]> ∅)) in
  after.1 = Ok tt /\ w_stdout after.2 = ["INFO:310 skip " +:+ dq +:+ "a.txt" +:+ dq].
Proof.
  intros opts.
  destruct (X8_unlock_skips_other_names Toy.lib opts (bytes_of "secret") "a.txt"
              (quiet_world (<["a.txt" := bytes_of "hello"]> ∅)))
    as (Hr & _ & _ & _ & Hout); [reflexivity|reflexivity|].
  split; [exact Hr|exact Hout].
Defined.

(** ** The command line and the password *)

(** X15: [getopts] returns with exactly one of [lock] and [unlock] set,
    [unlock] when [--unlock] or [--decrypt] was given and [lock]
    otherwise, and [--inplace] empties the suffix and turns [overwrite]
    on; when both a lock and an unlock flag are given it does not return:
    the call of the undefined name [error] raises a [NameError]. *)
Theorem X15_getopts_lock_xor_unlock (parsed : namespace) :
  let o := run_options parsed in
  let wants_lock := lock o || encrypt parsed in
  let wants_unlock := unlock o || decrypt parsed in
  (getopts parsed = NameError "error" <-> wants_lock && wants_unlock = true) /\
  (forall opts, getopts parsed = Returns opts ->
     let o' := run_options opts in
     unlock o' = wants_unlock /\ lock o' = negb wants_unlock /\
     suffix o' = (if inplace parsed then EmptyString else suffix o) /\
     overwrite o' = (if inplace parsed then true else overwrite o) /\
     cont o' = cont o /\ no_recurse o' = no_recurse o /\ verbose o' = verbose o /\
     FILES o' = FILES o /\
     password opts = password parsed /\ password_file opts = password_file parsed).
Proof.
  destruct parsed as [o d e i pw pf]. unfold getopts. cbn.
  destruct o as [c ov sfx l u nr v fs]. cbn.
  destruct d, e, i, l, u; cbn; (split; [split; (done || discriminate)|]);
    intros opts Heq; try discriminate Heq; injection Heq as <-; cbn; by repeat split.
Qed.

Lemma os_path_exists_run path w :
  os_path_exists path w =
    (Ok (bool_decide (is_Some (w_files w !! path)) || bool_decide (path ∈ w_dirs w)), w).
Proof. reflexivity. Qed.

(** [get_password] with a password file and no password on the command
    line. *)
Lemma get_password_file (opts : namespace) (typed typed2 file : string) (w : world) :
  truthy (password opts) = false ->
  password_file opts = Some file ->
  file ≠ EmptyString ->
  (is_Some (w_files w !! file) \/ file ∈ w_dirs w ->
     get_password opts typed typed2 w =
       (Raise (SystemExit 1),
        set_stdout (fun out => out ++ [report "ERROR" 413
                                        ("password file doesn't exist: " +:+ file)]) w)) /\
  (¬ (is_Some (w_files w !! file) \/ file ∈ w_dirs w) ->
     exists exc, get_password opts typed typed2 w = (Raise (IOError exc), w)).
Proof.
  intros Hpw Hpf Hfile. unfold get_password.
  rewrite Hpw, Hpf. cbn [truthy default from_option]. unfold id.
  rewrite bool_decide_eq_false_2 by done. cbn [negb].
  split.
  - intros Hex. unfold bind at 1. rewrite os_path_exists_run.
    assert (Hb : bool_decide (is_Some (w_files w !! file)) || bool_decide (file ∈ w_dirs w)
                 = true).
    { apply orb_true_iff. destruct Hex; [left|right]; by apply bool_decide_eq_true. }
    rewrite Hb. by unfold bind, err, _msg, modify, raise, report.
  - intros Hex.
    assert (Hb : bool_decide (is_Some (w_files w !! file)) || bool_decide (file ∈ w_dirs w)
                 = false).
    { apply orb_false_iff. split; apply bool_decide_eq_false; tauto. }
    unfold bind at 1. rewrite os_path_exists_run, Hb. unfold bind, ret, open_rb_read.
    destruct (w_rfault w file) as [exc|]; [by eexists|].
    destruct (w_files w !! file) as [data|] eqn:Hdata; [|by eexists].
    exfalso. apply Hex. left. by eexists.
Qed.

(** X14: a password file cannot be used.  Without [-P], and with [-p
    file], [get_password] never returns: when the file exists it reports
    that the file does not exist and exits with status 1, and when the file
    does not exist the [open] raises an [IOError] that nothing catches. *)
Theorem X14_password_file_never_works (opts : namespace) (typed typed2 file : string)
    (w : world) :
  truthy (password opts) = false ->
  password_file opts = Some file ->
  file ≠ EmptyString ->
  let after := get_password opts typed typed2 w in
  (is_Some (w_files w !! file) \/ file ∈ w_dirs w ->
     after.1 = Raise (SystemExit 1) /\
     w_stdout after.2 =
       w_stdout w ++ [report "ERROR" 413 ("password file doesn't exist: " +:+ file)]) /\
  (¬ (is_Some (w_files w !! file) \/ file ∈ w_dirs w) ->
     exists exc, after.1 = Raise (IOError exc) /\ after.2 = w).
Proof.
  intros Hpw Hpf Hfile after. subst after.
  destruct (get_password_file opts typed typed2 file w Hpw Hpf Hfile) as [Hex Hnex].
  split.
  - intros H. by rewrite (Hex H).
  - intros H. destruct (Hnex H) as (exc & ->). by exists exc.
Qed.

Lemma X14_password_file_witness :
  let opts := {| run_options :=
                   {| cont := false; overwrite := false; suffix := ".locked"; lock := true;
                      unlock := false; no_recurse := false; verbose := 0;
                      FILES := ["a.txt"] |};
                 decrypt := false; encrypt := false; inplace := false;
                 password := None; password_file := Some "pass.txt" |} in
  let w := quiet_world (<["pass.txt" := bytes_of "secret"]> ∅) in
  (get_password opts "" "" w).1 = Raise (SystemExit 1).
Proof.
  intros opts w.
  destruct (X14_password_file_never_works opts "" "" "pass.txt" w) as [Hex _];
    [reflexivity|reflexivity|discriminate|].
  apply Hex. left. by eexists.
Defined.

(** X16: [get_password] returns only the password of the command line,
    when there is one, or else, when no password file is named, what was
    typed at the prompt twice alike; in every other case it raises. *)
Theorem X16_get_password_returns (opts : namespace) (typed typed2 : string)
    (w : world) (s : secret) :
  (get_password opts typed typed2 w).1 = Ok s <->
  (exists p, password opts = Some p /\ p ≠ EmptyString /\ s = Str p) \/
  (truthy (password opts) = false /\ truthy (password_file opts) = false /\
   typed = typed2 /\ s = Str typed).
Proof.
  destruct (truthy (password opts)) eqn:Hpw.
  - unfold get_password. rewrite Hpw.
    destruct (password opts) as [p|] eqn:Hp; [|done]. cbn in Hpw |- *.
    apply negb_true_iff, bool_decide_eq_false in Hpw.
    split.
    + intros [= <-]. left. by exists p.
    + intros [(p' & [= <-] & _ & ->)|(? & _)]; done.
  - assert (Hno : ¬ exists p, password opts = Some p /\ p ≠ EmptyString /\ s = Str p).
    { intros (p & Hp & Hne & _). rewrite Hp in Hpw. cbn in Hpw.
      by apply negb_false_iff, bool_decide_eq_true in Hpw. }
    destruct (truthy (password_file opts)) eqn:Hpf.
    + split; [|intros [?|(_ & ? & _)]; done].
      intros Hok. exfalso.
      destruct (password_file opts) as [file|] eqn:Hfile; [|done]. cbn in Hpf.
      apply negb_true_iff, bool_decide_eq_false in Hpf.
      destruct (get_password_file opts typed typed2 file w Hpw Hfile Hpf) as [Hex Hnex].
      destruct (decide (is_Some (w_files w !! file) \/ file ∈ w_dirs w)) as [H|H].
      * by rewrite (Hex H) in Hok.
      * destruct (Hnex H) as (exc & Heq). by rewrite Heq in Hok.
    + unfold get_password. rewrite Hpw, Hpf. unfold bind, err, _msg, modify, raise, ret.
      case_bool_decide as Hsame; cbn.
      * split; [done|]. intros [?|(_ & _ & ? & _)]; done.
      * split; [intros [= <-]; right; by repeat split|].
        by intros [?|(_ & _ & _ & ->)].
Qed.

(** ** A write that fails in place *)

Lemma transition_write_failed opts src dst T what line info w r w' content data exc n :
  transition opts src dst T what line info w r w' ->
  (blocked opts w dst -> cont opts = true) ->
  read_error w src = None -> w_files w !! src = Some content ->
  T content = Ok data -> w_wfault w dst = WriteFails exc n ->
  r = policy opts /\
  w_files w' = <[dst := take n data]> (w_files w) /\
  new_events w w' = [EvWriteFailed dst].
Proof.
  intros Htr Hwarned Hread Hcontent HT Hfault.
  assert (Hat : forall printed r1 w1,
            attempt opts src dst T what line printed w r1 w1 ->
            r1 = policy opts /\ w_files w1 = <[dst := take n data]> (w_files w) /\
            new_events w w1 = [EvWriteFailed dst]).
  { intros printed r1 w1 Hat.
    destruct Hat as [exc' w1 Hr Hf Hev Hout
                    |content' exc' w1 Hr Hc HT' Hf Hev Hout
                    |content' e' w1 Hr Hc HT' He' Hf Hev Hout
                    |content' data' exc' w1 Hr Hc HT' Hw Hf Hev Hout
                    |content' data' exc' n' w1 Hr Hc HT' Hw Hf Hev Hout
                    |content' data' w1 Hr Hc HT' Hw Heq Hf Hev Hout
                    |content' data' w1 Hr Hc HT' Hw Hne Hf Hev Hout];
      try congruence.
    assert (content' = content) as -> by congruence.
    assert (data' = data) as -> by congruence.
    assert (n' = n) as -> by congruence.
    by rewrite (new_events_app w w1 _ Hev). }
  destruct Htr as [w1 Hb Hcont Hf Hev Hout|r1 w1 Hb Hcont Hat'|r1 w1 Hfree Hat'].
  - specialize (Hwarned Hb). congruence.
  - by apply (Hat _ _ _ Hat').
  - by apply (Hat _ _ _ Hat').
Qed.

(** X18: in place, that is with an empty suffix and [overwrite] on, a
    write that fails part way loses the file: the path then holds the
    first bytes of the new content, whatever was written before the
    failure, and the old content is nowhere; nothing is removed, and the
    call ends as [cont] says. *)
Theorem X18_in_place_write_failure_loses_content (L : Library) (opts : options)
    (password : bytes) (path : string) (w : world) (content data : bytes)
    (exc : string) (n : nat) :
  suffix opts = EmptyString ->
  overwrite opts = true ->
  read_error w path = None ->
  w_files w !! path = Some content ->
  codec opts password w content = Ok data ->
  w_wfault w path = WriteFails exc n ->
  let after := process_file opts password path w in
  after.1 = policy opts /\
  w_files after.2 = <[path := take n data]> (w_files w) /\
  new_events w after.2 = [EvWriteFailed path].
Proof.
  intros Hsfx Hover Hread Hcontent Hcodec Hfault after. subst after.
  rewrite process_file_run. unfold codec in Hcodec.
  set (w1 := set_stats (stat_add files 1) w).
  change (w_files w) with (w_files w1).
  change (new_events w) with (new_events w1).
  assert (Hfree : forall dst, blocked opts w1 dst -> cont opts = true).
  { intros dst [Hb _]. congruence. }
  destruct (lock opts).
  - pose proof (lock_file_transition opts password path w1 _ _ (surjective_pairing _)) as Htr.
    rewrite Hsfx, append_empty_r in Htr.
    exact (transition_write_failed _ _ _ _ _ _ _ w1 _ _ content data exc n Htr (Hfree _)
             Hread Hcontent Hcodec Hfault).
  - assert (Hend : endswith path (suffix opts) = true)
      by (rewrite Hsfx; apply endswith_empty).
    pose proof (unlock_file_transition opts password path w1 _ _ Hend (surjective_pairing _))
      as Htr.
    assert (Hdest : unlock_dest opts path = path) by (unfold unlock_dest; by rewrite Hsfx).
    rewrite Hdest in Htr.
    exact (transition_write_failed _ _ _ _ _ _ _ w1 _ _ content data exc n Htr (Hfree _)
             Hread Hcontent Hcodec Hfault).
Qed.

Lemma X18_in_place_write_failure_witness :
  let opts := {| cont := true; overwrite := true; suffix := ""; lock := true;
                 unlock := false; no_recurse := false; verbose := 0; FILES := [] |} in
  let w := with_wfault (fun _ => WriteFails "No space left on device" 0)
             (quiet_world (<["a.txt" := bytes_of "hello"]> ∅)) in
  let after := process_file (H := Toy.lib) opts (bytes_of "secret") "a.txt" w in
  after.1 = Ok tt /\ w_files after.2 !! "a.txt" = Some [].
Proof.
  intros opts w.
  edestruct (X18_in_place_write_failure_loses_content Toy.lib opts (bytes_of "secret")
               "a.txt" w (bytes_of "hello")) as (Hr & Hf & _);
    [reflexivity|reflexivity|reflexivity|reflexivity|vm_compute; reflexivity|reflexivity|].
  split; [exact Hr|]. rewrite Hf. apply lookup_insert_eq.
Defined.
